(** * Janggi engine: move generation, legality filter and turn bookkeeping

    A shallow embedding of [JanggiEngine.py] (classes [Move] and
    [JanggiGame]) together with the properties of its move generator,
    of [get_valid_moves], [make_move] and [undo_move].

    Conventions of the embedding.
    - A board cell is a two-character string in the source: ["--"] for an
      empty point, otherwise a colour letter ([R] or [B]) followed by a kind
      letter ([P R H C E G K]).  It is the inductive [cell] here.
    - [self._board] is a Python list of ten lists of nine cells; it is a
      [list (list cell)] read with stdpp's lookup and written with stdpp's
      insert.  Every subscript in the source is protected by a bounds test
      (rows 0..9, columns 0..8, or a palace range), so on a 10x9 grid no
      access is out of range and Python's negative-index wrap-around is
      never exercised.  Statements that do not ask for [wf_board] hold of
      every list of lists, in particular of the 10x9 grids, the only
      boards the program builds.
    - Coordinates are [Z]: the source computes [row - 1], [col + d * i], ...
      and tests the sign afterwards.
    - A per-piece rule appends to the list [moves] it is handed.  Here a
      rule returns the moves it appends, in the order it appends them, and
      [get_X_moves] puts them behind the list it is handed.
    - The methods that mutate [self] take the game record and return the
      new one next to their result.
    - Of [JanggiMain.py] the event loop of [main] is embedded: the
      translation of a mouse position, the click and key handling, and the
      subscript [highlightSquares] makes; drawing itself is not. *)

From Stdlib Require Import ZArith List Bool Lia.
From Stdlib Require String Ascii.
From stdpp Require Import base list list_numbers.
Import ListNotations.
Import String.StringSyntax Ascii.AsciiSyntax.
Open Scope Z_scope.
Delimit Scope string_scope with string.
Delimit Scope char_scope with char.

(** ** Pieces and cells *)

Inductive side := RED | BLUE.

Inductive kind := Pawn | Rook | Horse | Cannon | Elephant | Guard | King.

Inductive cell :=
| Empty                         (* "--" *)
| Pc (s : side) (k : kind).     (* colour letter, kind letter *)

Definition opp (s : side) : side :=
  match s with RED => BLUE | BLUE => RED end.

Definition side_eqb (a b : side) : bool :=
  match a, b with
  | RED, RED | BLUE, BLUE => true
  | _, _ => false
  end.

(** [piece == "--"] *)
Definition is_empty (p : cell) : bool :=
  match p with Empty => true | Pc _ _ => false end.

(** [piece[0] == "R"] (for [s = RED]) or [piece[0] == "B"] (for [s = BLUE]) *)
Definition has_side (s : side) (p : cell) : bool :=
  match p with Empty => false | Pc s' _ => side_eqb s' s end.

(** [piece[1] == "C"] *)
Definition is_cannon (p : cell) : bool :=
  match p with Pc _ Cannon => true | _ => false end.

(** [piece == "RK"] (for [s = RED]) or [piece == "BK"] (for [s = BLUE]) *)
Definition is_general (s : side) (p : cell) : bool :=
  match p with Pc s' King => side_eqb s' s | _ => false end.

(** ** The board *)

Abbreviation board := (list (list cell)).

Definition get_cell (b : board) (r c : Z) : cell :=
  match b !! Z.to_nat r with
  | Some line =>
      match line !! Z.to_nat c with
      | Some p => p
      | None => Empty
      end
  | None => Empty
  end.

Definition set_cell (b : board) (r c : Z) (v : cell) : board :=
  match b !! Z.to_nat r with
  | Some line => <[Z.to_nat r := <[Z.to_nat c := v]> line]> b
  | None => b
  end.

Definition wf_board (b : board) : Prop :=
  length b = 10%nat /\ Forall (fun line => length line = 9%nat) b.

(** [0 <= r <= 9 and 0 <= c <= 8] *)
Definition in_grid (r c : Z) : bool :=
  (0 <=? r) && (r <=? 9) && (0 <=? c) && (c <=? 8).

(** [0 <= r <= 2 and 3 <= c <= 5], the palace on RED's home rows *)
Definition in_top_palace (r c : Z) : bool :=
  (0 <=? r) && (r <=? 2) && (3 <=? c) && (c <=? 5).

(** [7 <= r <= 9 and 3 <= c <= 5], the palace on BLUE's home rows *)
Definition in_bottom_palace (r c : Z) : bool :=
  (7 <=? r) && (r <=? 9) && (3 <=? c) && (c <=? 5).

(** [7 <= r <= 9 and 3 <= c <= 5 or 0 <= r <= 2 and 3 <= c <= 5] *)
Definition in_any_palace (r c : Z) : bool :=
  in_bottom_palace r c || in_top_palace r c.

(** [range(lo, hi)] *)
Definition range (lo hi : Z) : list Z := seqZ lo (hi - lo).

(** ** Class [Move] *)

Record Move := {
  get_start_row : Z;
  get_start_col : Z;
  get_end_row : Z;
  get_end_col : Z;
  get_piece_moved : cell;
  get_piece_captured : cell
}.

(** [Move(startSq, endSq, board)]: the two cells are read when the move is
    built and never again. *)
Definition new_Move (startSq endSq : Z * Z) (b : board) : Move :=
  {| get_start_row := fst startSq;
     get_start_col := snd startSq;
     get_end_row := fst endSq;
     get_end_col := snd endSq;
     get_piece_moved := get_cell b (fst startSq) (snd startSq);
     get_piece_captured := get_cell b (fst endSq) (snd endSq) |}.

(** ** Per-piece rules *)

Definition directions : list (Z * Z) := [(1, 0); (-1, 0); (0, -1); (0, 1)].
Definition diagnolCor : list (Z * Z) := [(-1, -1); (1, -1); (-1, 1); (1, 1)].
Definition check_directions : list (Z * Z) := [(1, -1); (-1, -1); (1, -1); (-1, 1)].
Definition right_directions : list (Z * Z) := [(1, 1); (-1, 1); (-1, -1); (1, 1)].

Definition top_diagonalPos : list (Z * Z) :=
  [(0, 3); (2, 3); (0, 5); (2, 5); (1, 4)].
Definition bottom_diagonalPos : list (Z * Z) :=
  [(9, 3); (7, 3); (9, 5); (7, 5); (8, 4)].
Definition all_diagonalPos : list (Z * Z) :=
  bottom_diagonalPos ++ top_diagonalPos.

Section Rules.
Variable b : board.
Variables row col : Z.

Definition mv (r c : Z) : Move := new_Move (row, col) (r, c) b.

(** [if p == "--": append  elif p[0] == enemy: append] *)
Definition land_elif (enemy : side) (r c : Z) : list Move :=
  let p := get_cell b r c in
  if is_empty p then [mv r c]
  else if has_side enemy p then [mv r c]
  else [].

(** [if p == "--": append] followed by [if p[0] == enemy: append] *)
Definition land_if_if (enemy : side) (r c : Z) : list Move :=
  let p := get_cell b r c in
  (if is_empty p then [mv r c] else []) ++
  (if has_side enemy p then [mv r c] else []).

(** [for i in diagonalPos: if row == i[0] and col == i[1]:
       for c in diagnolCor: ... if <zone>(dRow, dCol): <two ifs>] *)
Definition diagonal_steps (diagonalPos : list (Z * Z))
    (zone : Z -> Z -> bool) (enemy : side) : list Move :=
  flat_map (fun i =>
    if (row =? fst i) && (col =? snd i) then
      flat_map (fun c =>
        let dRow := row + fst c in
        let dCol := col + snd c in
        if zone dRow dCol then land_if_if enemy dRow dCol else [])
        diagnolCor
    else []) diagonalPos.

(** *** [get_pawn_moves] *)
Definition pawn_moves (turn : side) : list Move :=
  match turn with
  | RED =>
      (if (0 <=? row + 1) && (row + 1 <=? 9)
       then land_elif BLUE (row + 1) col else []) ++
      (if (0 <=? col + 1) && (col + 1 <=? 8)
       then land_elif BLUE row (col + 1) else []) ++
      (if (0 <=? col - 1) && (col - 1 <=? 8)
       then land_elif BLUE row (col - 1) else []) ++
      diagonal_steps top_diagonalPos in_bottom_palace BLUE
  | BLUE =>
      (if (0 <=? row - 1) && (row - 1 <=? 9)
       then land_elif RED (row - 1) col else []) ++
      (if (0 <=? col + 1) && (col + 1 <=? 8)
       then land_elif RED row (col + 1) else []) ++
      (if (0 <=? col - 1) && (col - 1 <=? 8)
       then land_elif RED row (col - 1) else []) ++
      diagonal_steps bottom_diagonalPos in_top_palace RED
  end.

(** *** [get_rook_moves] *)

(** One turn of [for i in range(1, 10)]; the state is [mark] and the
    moves appended so far in this direction. *)
Definition rook_step (own : side) (d : Z * Z)
    (st : Z * list Move) (i : Z) : Z * list Move :=
  let '(mark, out) := st in
  let endRow := row + fst d * i in
  let endCol := col + snd d * i in
  if in_grid endRow endCol then
    let endPiece := get_cell b endRow endCol in
    if mark =? 0 then
      if has_side own endPiece then (1, out)
      else if is_empty endPiece then (mark, out ++ [mv endRow endCol])
      else if has_side (opp own) endPiece then (1, out ++ [mv endRow endCol])
      else (mark, out)
    else (mark, out)
  else (mark, out).

Definition rook_slide (own : side) (d : Z * Z) : list Move :=
  snd (fold_left (rook_step own d) (range 1 10) (0, [])).

(** In the RED branch the palace-diagonal loop sits inside
    [for d in directions], in the BLUE branch after it. *)
Definition rook_moves (turn : side) : list Move :=
  match turn with
  | RED =>
      flat_map (fun d =>
        rook_slide RED d ++
        diagonal_steps all_diagonalPos in_any_palace BLUE) directions
  | BLUE =>
      flat_map (rook_slide BLUE) directions ++
      diagonal_steps all_diagonalPos in_any_palace RED
  end.

(** *** [get_horse_moves] *)

(** [if in_grid(r, c): p = board[r][c]; if mark == 0 and p[0] != own: append]
    with [mark == 0] at that point. *)
Definition horse_leg (own : side) (r c : Z) : list Move :=
  if in_grid r c then
    if (0 =? 0) && negb (has_side own (get_cell b r c)) then [mv r c] else []
  else [].

(** The counter [i] walks [check_directions] and [right_directions] in
    step with [directions]. *)
Definition horse_moves (own : side) : list Move :=
  flat_map (fun '(d, (l, r)) =>
    let endRow := row + fst d in
    let endCol := col + snd d in
    if in_grid endRow endCol then
      let endPiece := get_cell b endRow endCol in
      let mark := if negb (is_empty endPiece) then 3 else 0 in
      if mark =? 0 then
        horse_leg own (endRow + fst l) (endCol + snd l) ++
        horse_leg own (endRow + fst r) (endCol + snd r)
      else []
    else [])
    (combine directions (combine check_directions right_directions)).

(** *** [get_cannon_moves] *)

(** One turn of [for i in range(1, 10)]: the [if]/[elif] chain on
    [endPiece] and [mark], in the order of the source.  [mark] is 0 before
    the first piece, 1 once a screen that is not a cannon has been met, 3
    when the slide is over. *)
Definition cannon_step (own : side) (d : Z * Z)
    (st : Z * list Move) (i : Z) : Z * list Move :=
  let '(mark, out) := st in
  let endRow := row + fst d * i in
  let endCol := col + snd d * i in
  if in_grid endRow endCol then
    let endPiece := get_cell b endRow endCol in
    if negb (is_empty endPiece) && (mark =? 0) then
      if is_cannon endPiece then (3, out) else (1, out)
    else if is_empty endPiece && (mark =? 0) then (0, out)
    else if (mark =? 1) && is_empty endPiece then
      (mark, out ++ [mv endRow endCol])
    else if (mark =? 1) && has_side (opp own) endPiece then
      (3, out ++ [mv endRow endCol])
    else if (mark =? 1) && has_side own endPiece then (3, out)
    else (mark, out)
  else (mark, out).

Definition cannon_slide (own : side) (d : Z * Z) : list Move :=
  snd (fold_left (cannon_step own d) (range 1 10) (0, [])).

(** The palace-diagonal loop, after [for d in directions] in both
    branches. *)
Definition cannon_diagonals (own : side) : list Move :=
  flat_map (fun i =>
    if (row =? fst i) && (col =? snd i) then
      flat_map (fun c =>
        let dRow := row + fst c in
        let dCol := col + snd c in
        if in_any_palace dRow dCol then
          let diagPiece := get_cell b dRow dCol in
          if negb (is_empty diagPiece) then
            let dRow2 := row + fst c * 2 in
            let dCol2 := col + snd c * 2 in
            if in_any_palace dRow2 dCol2 then
              let dPiece := get_cell b dRow2 dCol2 in
              if negb (has_side own dPiece) then [mv dRow2 dCol2] else []
            else []
          else []
        else []) diagnolCor
    else []) all_diagonalPos.

Definition cannon_moves (own : side) : list Move :=
  flat_map (cannon_slide own) directions ++ cannon_diagonals own.

(** *** [get_elephant_moves] *)

(** One of the two legs tried after the orthogonal step to
    [(endRow, endCol)]; [mark] is 0 on entry. *)
Definition elephant_leg (own : side) (endRow endCol : Z) (l : Z * Z)
    : list Move :=
  let r1 := endRow + fst l in
  let c1 := endCol + snd l in
  if in_grid r1 c1 then
    let checkPiece := get_cell b r1 c1 in
    let mark := if negb (is_empty checkPiece) then 3 else 0 in
    if in_grid r1 c1 then
      let mark :=
        if (mark =? 0) && has_side RED (get_cell b r1 c1)
           || has_side BLUE (get_cell b r1 c1)
        then 3 else mark in
      let r2 := endRow + fst l * 2 in
      let c2 := endCol + snd l * 2 in
      if in_grid r2 c2 then
        if (mark =? 0) && negb (has_side own (get_cell b r2 c2))
        then [mv r2 c2] else []
      else []
    else []
  else [].

Definition elephant_moves (own : side) : list Move :=
  flat_map (fun '(d, (l, r)) =>
    let endRow := row + fst d in
    let endCol := col + snd d in
    if in_grid endRow endCol then
      let endPiece := get_cell b endRow endCol in
      let mark := if negb (is_empty endPiece) then 3 else 0 in
      if mark =? 0 then
        elephant_leg own endRow endCol l ++ elephant_leg own endRow endCol r
      else []
    else [])
    (combine directions (combine check_directions right_directions)).

(** *** [get_guards_moves] and [get_general_moves]: the two bodies are
    the same text. *)
Definition palace_moves (turn : side) : list Move :=
  match turn with
  | RED =>
      flat_map (fun d =>
        let endRow := row + fst d in
        let endCol := col + snd d in
        if in_top_palace endRow endCol
        then land_elif BLUE endRow endCol else []) directions ++
      diagonal_steps top_diagonalPos in_top_palace BLUE
  | BLUE =>
      flat_map (fun d =>
        let endRow := row + fst d in
        let endCol := col + snd d in
        if in_bottom_palace endRow endCol
        then land_elif RED endRow endCol else []) directions ++
      diagonal_steps bottom_diagonalPos in_bottom_palace RED
  end.

End Rules.

Definition get_pawn_moves b turn row col (moves : list Move) :=
  moves ++ pawn_moves b row col turn.
Definition get_rook_moves b turn row col (moves : list Move) :=
  moves ++ rook_moves b row col turn.
Definition get_horse_moves b turn row col (moves : list Move) :=
  moves ++ horse_moves b row col turn.
Definition get_cannon_moves b turn row col (moves : list Move) :=
  moves ++ cannon_moves b row col turn.
Definition get_elephant_moves b turn row col (moves : list Move) :=
  moves ++ elephant_moves b row col turn.
Definition get_guards_moves b turn row col (moves : list Move) :=
  moves ++ palace_moves b row col turn.
Definition get_general_moves b turn row col (moves : list Move) :=
  moves ++ palace_moves b row col turn.

(** ** [get_all_possible_moves] *)

(** The body of the double loop at one square. *)
Definition scan_square (b : board) (turn : side) (moves : list Move)
    (rc : Z * Z) : list Move :=
  let '(r, c) := rc in
  let p := get_cell b r c in
  if has_side RED p && side_eqb turn RED || has_side BLUE p && side_eqb turn BLUE
  then
    match p with
    | Pc _ Pawn => get_pawn_moves b turn r c moves
    | Pc _ Rook => get_rook_moves b turn r c moves
    | Pc _ Horse => get_horse_moves b turn r c moves
    | Pc _ Cannon => get_cannon_moves b turn r c moves
    | Pc _ Elephant => get_elephant_moves b turn r c moves
    | Pc _ Guard => get_guards_moves b turn r c moves
    | Pc _ King => get_general_moves b turn r c moves
    | Empty => moves
    end
  else moves.

(** [for r in range(0, 10): for c in range(0, 9)] *)
Definition squares : list (Z * Z) :=
  flat_map (fun r => map (fun c => (r, c)) (range 0 9)) (range 0 10).

Definition all_possible_moves (b : board) (turn : side) : list Move :=
  fold_left (scan_square b turn) squares [].

(** ** Class [JanggiGame] *)

Inductive game_state := UNFINISHED | RED_WON | BLUE_WON.

Record JanggiGame := {
  _board : board;
  _game_state : game_state;
  _moveLog : list Move;          (* oldest move first, [append] at the end *)
  _player_turn : side;
  _checkmate : bool;
  _player_red : option bool;     (* [None] until [in_check] sets it *)
  _player_blue : option bool
}.

Definition with_board (g : JanggiGame) (b : board) : JanggiGame :=
  {| _board := b; _game_state := _game_state g; _moveLog := _moveLog g;
     _player_turn := _player_turn g; _checkmate := _checkmate g;
     _player_red := _player_red g; _player_blue := _player_blue g |}.

Definition with_moveLog (g : JanggiGame) (l : list Move) : JanggiGame :=
  {| _board := _board g; _game_state := _game_state g; _moveLog := l;
     _player_turn := _player_turn g; _checkmate := _checkmate g;
     _player_red := _player_red g; _player_blue := _player_blue g |}.

Definition with_turn (g : JanggiGame) (t : side) : JanggiGame :=
  {| _board := _board g; _game_state := _game_state g; _moveLog := _moveLog g;
     _player_turn := t; _checkmate := _checkmate g;
     _player_red := _player_red g; _player_blue := _player_blue g |}.

Definition set_game_state (g : JanggiGame) (s : game_state) : JanggiGame :=
  {| _board := _board g; _game_state := s; _moveLog := _moveLog g;
     _player_turn := _player_turn g; _checkmate := _checkmate g;
     _player_red := _player_red g; _player_blue := _player_blue g |}.

Definition set_checkmate (g : JanggiGame) (v : bool) : JanggiGame :=
  {| _board := _board g; _game_state := _game_state g; _moveLog := _moveLog g;
     _player_turn := _player_turn g; _checkmate := v;
     _player_red := _player_red g; _player_blue := _player_blue g |}.

Definition set_player_red (g : JanggiGame) (v : bool) : JanggiGame :=
  {| _board := _board g; _game_state := _game_state g; _moveLog := _moveLog g;
     _player_turn := _player_turn g; _checkmate := _checkmate g;
     _player_red := Some v; _player_blue := _player_blue g |}.

Definition set_player_blue (g : JanggiGame) (v : bool) : JanggiGame :=
  {| _board := _board g; _game_state := _game_state g; _moveLog := _moveLog g;
     _player_turn := _player_turn g; _checkmate := _checkmate g;
     _player_red := _player_red g; _player_blue := Some v |}.

(** [set_player_turn]: RED becomes BLUE, anything else becomes RED. *)
Definition set_player_turn (g : JanggiGame) : JanggiGame :=
  match _player_turn g with
  | RED => with_turn g BLUE
  | BLUE => with_turn g RED
  end.

(** [board[r][c] = v] on [self._board] *)
Definition write_cell (g : JanggiGame) (r c : Z) (v : cell) : JanggiGame :=
  with_board g (set_cell (_board g) r c v).

Definition get_all_possible_moves (g : JanggiGame) : list Move :=
  all_possible_moves (_board g) (_player_turn g).

Definition coord_eqb (x y : Z * Z) : bool :=
  (fst x =? fst y) && (snd x =? snd y).

(** The two nested tests of the loops in [test_move] and [make_move]. *)
Definition move_matches (start_cor end_cor : Z * Z) (move : Move) : bool :=
  (get_start_row move =? fst start_cor) && (get_start_col move =? snd start_cor)
  && ((get_end_row move =? fst end_cor) && (get_end_col move =? snd end_cor)).

(** [test_move] *)
Definition test_move (g : JanggiGame) (start_cor end_cor : Z * Z)
    : bool * JanggiGame :=
  let moves_list := get_all_possible_moves g in
  if coord_eqb start_cor end_cor then (true, set_player_turn g)
  else
    match find (move_matches start_cor end_cor) moves_list with
    | Some move =>
        let g1 := write_cell g (get_start_row move) (get_start_col move) Empty in
        let g2 := write_cell g1 (get_end_row move) (get_end_col move)
                    (get_piece_moved move) in
        (true, set_player_turn g2)
    | None => (false, g)
    end.

(** [square_under_attack] *)
Definition square_under_attack (g : JanggiGame) (r c : Z) : bool * JanggiGame :=
  let g1 := set_player_turn g in
  let oppMoves := get_all_possible_moves g1 in
  let g2 := set_player_turn g1 in
  (existsb (fun move => (get_end_row move =? r) && (get_end_col move =? c))
     oppMoves, g2).

(** [in_check]: the scan returns at the first general of the side to move;
    falling off the end of the loops returns [None]. *)
Fixpoint in_check_from (g : JanggiGame) (sqs : list (Z * Z))
    : option bool * JanggiGame :=
  match sqs with
  | [] => (None, g)
  | (r, c) :: rest =>
      let piece := get_cell (_board g) r c in
      if is_general RED piece then
        if side_eqb (_player_turn g) RED then
          let '(v, g1) := square_under_attack g r c in
          let g2 := set_player_red g1 v in
          (_player_red g2, g2)
        else in_check_from g rest
      else if is_general BLUE piece then
        if side_eqb (_player_turn g) BLUE then
          let '(v, g1) := square_under_attack g r c in
          let g2 := set_player_blue g1 v in
          (_player_blue g2, g2)
        else in_check_from g rest
      else in_check_from g rest
  end.

Definition in_check (g : JanggiGame) : option bool * JanggiGame :=
  in_check_from g squares.

(** [x is True] *)
Definition is_True (x : option bool) : bool :=
  match x with Some true => true | _ => false end.

(** The body of the loop of [get_valid_moves].  [kept] holds the moves
    already visited and not removed. *)
Definition valid_step (acc : JanggiGame * list Move) (move : Move)
    : JanggiGame * list Move :=
  let '(g, kept) := acc in
  let end_ := get_piece_captured move in
  let start := get_piece_moved move in
  let start_cor := (get_start_row move, get_start_col move) in
  let end_cor := (get_end_row move, get_end_col move) in
  let '(_, g1) := test_move g start_cor end_cor in
  let g2 := set_player_turn g1 in
  let '(chk, g3) := in_check g2 in
  let kept' := if is_True chk then kept else move :: kept in
  let g4 := write_cell g3 (fst start_cor) (snd start_cor) start in
  let g5 := write_cell g4 (fst end_cor) (snd end_cor) end_ in
  (g5, kept').

(** [get_valid_moves].  The loop visits [moves] from the last index down
    to 0 and [moves.remove(move)] deletes the object just visited ([Move]
    has no [__eq__], so [remove] compares identities); what is left is the
    visited moves that were kept, in their original order. *)
Definition get_valid_moves (g : JanggiGame) : list Move * JanggiGame :=
  let moves := get_all_possible_moves g in
  let '(g', kept) := fold_left valid_step (rev moves) (g, []) in
  (kept, g').

(** [moveLog.pop()] on a non-empty list *)
Definition pop (l : list Move) : option (Move * list Move) :=
  match rev l with
  | [] => None
  | x :: r => Some (x, rev r)
  end.

(** [undo_move] *)
Definition undo_move (g : JanggiGame) : JanggiGame :=
  match pop (_moveLog g) with
  | None => g
  | Some (move, rest) =>
      let g1 := with_moveLog g rest in
      let g2 := write_cell g1 (get_start_row move) (get_start_col move)
                  (get_piece_moved move) in
      let g3 := write_cell g2 (get_end_row move) (get_end_col move)
                  (get_piece_captured move) in
      set_player_turn g3
  end.

(** [make_move] *)
Definition make_move (g : JanggiGame) (xcor ycor : Z * Z) : bool * JanggiGame :=
  let '(moves_list, g) := get_valid_moves g in
  let start := xcor in
  let end_ := ycor in
  match _game_state g with
  | UNFINISHED =>
      if coord_eqb xcor ycor then (true, set_player_turn g)
      else
        match find (move_matches start end_) moves_list with
        | Some move =>
            let g := write_cell g (get_start_row move) (get_start_col move) Empty in
            let g := write_cell g (get_end_row move) (get_end_col move)
                       (get_piece_moved move) in
            let g := with_moveLog g (_moveLog g ++ [move]) in
            let g := set_player_turn g in
            let '(opp_moves, g) := get_valid_moves g in
            let g :=
              if (length opp_moves =? 0)%nat then
                let '(chk, g) := in_check g in
                (* [if self.in_check():] tests truthiness; [None] is false *)
                if is_True chk then set_checkmate g true
                else set_checkmate g false
              else set_checkmate g false in
            let g :=
              if _checkmate g then
                match _player_turn g with
                | RED => set_game_state g BLUE_WON
                | BLUE => set_game_state g RED_WON
                end
              else set_player_turn g in
            let g := set_player_turn g in
            (true, g)
        | None => (false, g)
        end
  | _ => (false, g)
  end.

(** ** Concrete positions *)

(** The fourteen piece strings and the empty point, as the source spells
    them. *)
Abbreviation RP := (Pc RED Pawn).
Abbreviation RR := (Pc RED Rook).
Abbreviation RH := (Pc RED Horse).
Abbreviation RC := (Pc RED Cannon).
Abbreviation RE := (Pc RED Elephant).
Abbreviation RG := (Pc RED Guard).
Abbreviation RK := (Pc RED King).
Abbreviation BP := (Pc BLUE Pawn).
Abbreviation BR := (Pc BLUE Rook).
Abbreviation BH := (Pc BLUE Horse).
Abbreviation BC := (Pc BLUE Cannon).
Abbreviation BE := (Pc BLUE Elephant).
Abbreviation BG := (Pc BLUE Guard).
Abbreviation BK := (Pc BLUE King).
Abbreviation __ := Empty.   (* "--" *)

(** [self._board] as [__init__] builds it. *)
Definition initial_board : board :=
  [ [RR; RE; RH; RG; __; RG; RE; RH; RR];   (* 0 *)
    [__; __; __; __; RK; __; __; __; __];   (* 1 *)
    [__; RC; __; __; __; __; __; RC; __];   (* 2 *)
    [RP; __; RP; __; RP; __; RP; __; RP];   (* 3 *)
    [__; __; __; __; __; __; __; __; __];   (* 4 *)
    [__; __; __; __; __; __; __; __; __];   (* 5 *)
    [BP; __; BP; __; BP; __; BP; __; BP];   (* 6 *)
    [__; BC; __; __; __; __; __; BC; __];   (* 7 *)
    [__; __; __; __; BK; __; __; __; __];   (* 8 *)
    [BR; BE; BH; BG; __; BG; BE; BH; BR] ]. (* 9 *)

(** [JanggiGame()] *)
Definition new_game : JanggiGame :=
  {| _board := initial_board; _game_state := UNFINISHED; _moveLog := [];
     _player_turn := RED; _checkmate := false;
     _player_red := None; _player_blue := None |}.

(** RED to move; the rook on (0,8) can go to (9,8), from where it attacks
    row 9 while the other rook holds row 8. *)
Definition mate_board : board :=
  [ [__; __; __; __; __; __; __; __; RR];   (* 0 *)
    [__; __; __; __; RK; __; __; __; __];   (* 1 *)
    [__; __; __; __; __; __; __; __; __];   (* 2 *)
    [__; __; __; __; __; __; __; __; __];   (* 3 *)
    [__; __; __; __; __; __; __; __; __];   (* 4 *)
    [__; __; __; __; __; __; __; __; __];   (* 5 *)
    [__; __; __; __; __; __; __; __; __];   (* 6 *)
    [__; __; __; __; __; __; __; __; __];   (* 7 *)
    [RR; __; __; __; __; __; __; __; __];   (* 8 *)
    [__; __; __; BK; __; __; __; __; __] ]. (* 9 *)

Definition mate_game : JanggiGame := with_board new_game mate_board.

(** RED cannon on (2,1), a RED soldier as screen on (3,1), a BLUE cannon
    behind it on (7,1). *)
Definition cannon_board : board :=
  [ [__; __; __; __; __; __; __; __; __];   (* 0 *)
    [__; __; __; __; RK; __; __; __; __];   (* 1 *)
    [__; RC; __; __; __; __; __; __; __];   (* 2 *)
    [__; RP; __; __; __; __; __; __; __];   (* 3 *)
    [__; __; __; __; __; __; __; __; __];   (* 4 *)
    [__; __; __; __; __; __; __; __; __];   (* 5 *)
    [__; __; __; __; __; __; __; __; __];   (* 6 *)
    [__; BC; __; __; __; __; __; __; __];   (* 7 *)
    [__; __; __; __; BK; __; __; __; __];   (* 8 *)
    [__; __; __; __; __; __; __; __; __] ]. (* 9 *)

(** A RED soldier on (7,3), a corner of the palace on BLUE's home rows. *)
Definition pawn_board : board :=
  [ [__; __; __; __; __; __; __; __; __];   (* 0 *)
    [__; __; __; __; RK; __; __; __; __];   (* 1 *)
    [__; __; __; __; __; __; __; __; __];   (* 2 *)
    [__; __; __; __; __; __; __; __; __];   (* 3 *)
    [__; __; __; __; __; __; __; __; __];   (* 4 *)
    [__; __; __; __; __; __; __; __; __];   (* 5 *)
    [__; __; __; __; __; __; __; __; __];   (* 6 *)
    [__; __; __; RP; __; __; __; __; __];   (* 7 *)
    [__; __; __; __; __; __; __; __; __];   (* 8 *)
    [__; __; __; __; BK; __; __; __; __] ]. (* 9 *)

(** ** Auxiliary notions used in the statements and proofs *)

(** Cells by list index. *)
Definition get_at (b : board) (i j : nat) : cell :=
  match b !! i with
  | Some line => match line !! j with Some p => p | None => Empty end
  | None => Empty
  end.

Definition set_at (b : board) (i j : nat) (v : cell) : board :=
  match b !! i with
  | Some line => <[i := <[j := v]> line]> b
  | None => b
  end.

(** A move from [(row, col)], read off [b], that ends on the grid and
    not on a piece of [own]. *)
Definition lands (b : board) (row col : Z) (own : side) (m : Move) : Prop :=
  exists r c, m = mv b row col r c /\ in_grid r c = true /\
              has_side own (get_cell b r c) = false.

(** What holds of every move [get_all_possible_moves] returns on board [b]
    with [turn] to move. *)
Definition pseudo_ok (b : board) (turn : side) (m : Move) : Prop :=
  in_grid (get_start_row m) (get_start_col m) = true /\
  in_grid (get_end_row m) (get_end_col m) = true /\
  has_side turn (get_cell b (get_start_row m) (get_start_col m)) = true /\
  has_side turn (get_cell b (get_end_row m) (get_end_col m)) = false /\
  m = new_Move (get_start_row m, get_start_col m) (get_end_row m, get_end_col m) b.

(** The board after the two writes that carry out [move]:
    [board[start] = "--"; board[end] = move.get_piece_moved()]. *)
Definition play (b : board) (move : Move) : board :=
  set_cell (set_cell b (get_start_row move) (get_start_col move) Empty)
    (get_end_row move) (get_end_col move) (get_piece_moved move).

(** What [square_under_attack] returns when [turn] is to move on [b]. *)
Definition square_attacked (b : board) (turn : side) (r c : Z) : bool :=
  existsb (fun move => (get_end_row move =? r) && (get_end_col move =? c))
    (all_possible_moves b (opp turn)).

(** What [in_check] returns when [turn] is to move on [b]. *)
Fixpoint general_check (b : board) (turn : side) (sqs : list (Z * Z))
    : option bool :=
  match sqs with
  | [] => None
  | (r, c) :: rest =>
      if is_general turn (get_cell b r c) then Some (square_attacked b turn r c)
      else general_check b turn rest
  end.

(** The test [get_valid_moves] applies to a pseudo move: carried out on
    [b], does [in_check()] return [True] for the mover? *)
Definition leaves_in_check (b : board) (turn : side) (move : Move) : bool :=
  is_True (general_check (play b move) turn squares).

(** The list [get_valid_moves] returns. *)
Definition legal_moves (b : board) (turn : side) : list Move :=
  List.filter (fun move => negb (leaves_in_check b turn move))
    (all_possible_moves b turn).

(** Two game records that differ at most in the two in-check flags. *)
Definition agree (g g' : JanggiGame) : Prop :=
  _board g' = _board g /\ _player_turn g' = _player_turn g /\
  _moveLog g' = _moveLog g /\ _game_state g' = _game_state g /\
  _checkmate g' = _checkmate g.

(** The side now to move has no legal move and [in_check()] is [True]:
    the test that sets [self._checkmate] in [make_move]. *)
Definition is_mate (b : board) (turn : side) : bool :=
  (length (legal_moves b turn) =? 0)%nat && is_True (general_check b turn squares).

(** The terminal state that credits [winner]. *)
Definition won_by (winner : side) : game_state :=
  match winner with RED => RED_WON | BLUE => BLUE_WON end.

(** At most one general of [s] stands on the grid. *)
Definition one_general (b : board) (s : side) : Prop :=
  forall r c r' c',
    in_grid r c = true -> in_grid r' c' = true ->
    get_cell b r c = Pc s King -> get_cell b r' c' = Pc s King ->
    (r, c) = (r', c').

(** A general of [s] stands on the grid. *)
Definition has_general (b : board) (s : side) : Prop :=
  exists r c, in_grid r c = true /\ get_cell b r c = Pc s King.

(** Some pseudo move of the other side ends on a square that holds a
    general of [s]. *)
Definition general_attacked (b : board) (s : side) : Prop :=
  exists r c, in_grid r c = true /\ get_cell b r c = Pc s King /\
    exists m, In m (all_possible_moves b (opp s)) /\
              get_end_row m = r /\ get_end_col m = c.

(** The states a caller can bring a fresh game to through the methods of
    [JanggiGame] that change it: [make_move], [undo_move] and
    [get_valid_moves], which the driver calls, and the setters and the two
    attack queries.  [test_move] is left out: it is the helper of
    [get_valid_moves] and, called on its own, writes the board without
    logging the move. *)
Inductive reachable : JanggiGame -> Prop :=
| reach_new : reachable new_game
| reach_make g xcor ycor : reachable g -> reachable (snd (make_move g xcor ycor))
| reach_undo g : reachable g -> reachable (undo_move g)
| reach_valid g : reachable g -> reachable (snd (get_valid_moves g))
| reach_in_check g : reachable g -> reachable (snd (in_check g))
| reach_attack g r c : reachable g -> reachable (snd (square_under_attack g r c))
| reach_turn g : reachable g -> reachable (set_player_turn g)
| reach_state g s : reachable g -> reachable (set_game_state g s)
| reach_checkmate g v : reachable g -> reachable (set_checkmate g v)
| reach_red g v : reachable g -> reachable (set_player_red g v)
| reach_blue g v : reachable g -> reachable (set_player_blue g v).

(** [played b log]: [b] is the initial board after the moves of [log], each
    a pseudo move of the board it was made on. *)
Inductive played : board -> list Move -> Prop :=
| played_nil : played initial_board []
| played_snoc b log turn m :
    played b log -> pseudo_ok b turn m -> played (play b m) (log ++ [m]).

(** [jumped b row col own d m]: [m] goes from [(row, col)] to the square
    [i] steps away along [d], over exactly one piece, at [j] steps, which is
    not a cannon; every other square on the way is empty, and the
    destination is empty or holds a piece of the other side. *)
Definition jumped (b : board) (row col : Z) (own : side) (d : Z * Z)
    (m : Move) : Prop :=
  exists i j, 1 <= j < i /\
    m = mv b row col (row + fst d * i) (col + snd d * i) /\
    in_grid (row + fst d * i) (col + snd d * i) = true /\
    in_grid (row + fst d * j) (col + snd d * j) = true /\
    is_empty (get_cell b (row + fst d * j) (col + snd d * j)) = false /\
    is_cannon (get_cell b (row + fst d * j) (col + snd d * j)) = false /\
    (forall k, 1 <= k < i -> k <> j ->
       in_grid (row + fst d * k) (col + snd d * k) = true ->
       is_empty (get_cell b (row + fst d * k) (col + snd d * k)) = true) /\
    (is_empty (get_cell b (row + fst d * i) (col + snd d * i)) = true \/
     has_side (opp own) (get_cell b (row + fst d * i) (col + snd d * i)) = true).

(** What the loop of [get_cannon_moves] along [d] knows before it looks at
    the square [n] steps away. *)
Definition cannon_inv (b : board) (row col : Z) (own : side) (d : Z * Z)
    (n : Z) (st : Z * list Move) : Prop :=
  ((fst st = 0 /\
    forall k, 1 <= k < n ->
      in_grid (row + fst d * k) (col + snd d * k) = true ->
      is_empty (get_cell b (row + fst d * k) (col + snd d * k)) = true)
   \/
   (fst st = 1 /\
    exists j, 1 <= j < n /\
      in_grid (row + fst d * j) (col + snd d * j) = true /\
      is_empty (get_cell b (row + fst d * j) (col + snd d * j)) = false /\
      is_cannon (get_cell b (row + fst d * j) (col + snd d * j)) = false /\
      forall k, 1 <= k < n -> k <> j ->
        in_grid (row + fst d * k) (col + snd d * k) = true ->
        is_empty (get_cell b (row + fst d * k) (col + snd d * k)) = true)
   \/ fst st = 3)
  /\ Forall (jumped b row col own d) (snd st).

(** The soldier's first step of the initial game, used as a sample move. *)
Definition first_step : Move := new_Move (3, 0) (4, 0) initial_board.

(** The capture the cannon of [cannon_board] is offered. *)
Definition cannon_takes_cannon : Move := new_Move (2, 1) (7, 1) cannon_board.

(** The rook move that mates on [mate_board]. *)
Definition mating_move : Move := new_Move (0, 8) (9, 8) mate_board.

(** ** Further methods of [JanggiGame] *)

(** [is_in_check(team)]: the scan for the general of [team] ("red" or
    "blue"); any other [team], or a board without that general, falls off
    the end and returns [None]. *)
Fixpoint is_in_check_from (g : JanggiGame) (s : side) (sqs : list (Z * Z))
    : option bool * JanggiGame :=
  match sqs with
  | [] => (None, g)
  | (r, c) :: rest =>
      let piece := get_cell (_board g) r c in
      if is_general s piece then
        let '(v, g1) := square_under_attack g r c in (Some v, g1)
      else is_in_check_from g s rest
  end.

Definition is_in_check (g : JanggiGame) (team : String.string)
    : option bool * JanggiGame :=
  if String.eqb team "red" then is_in_check_from g RED squares
  else if String.eqb team "blue" then is_in_check_from g BLUE squares
  else (None, g).

(** What a call gives back: a value, [None], or one of the two exceptions
    the conversions can raise. *)
Inductive result (A : Type) :=
| Return (v : A)
| ReturnNone
| IndexError
| ValueError.
Arguments Return {A} v.
Arguments ReturnNone {A}.
Arguments IndexError {A}.
Arguments ValueError {A}.

(** [l[i]] on a Python list: indices [0 .. len-1], and [-len .. -1]
    counted from the end; [None] stands for [IndexError]. *)
Definition py_index {A : Type} (l : list A) (i : Z) : option A :=
  let n := Z.of_nat (length l) in
  if (0 <=? i) && (i <? n) then l !! Z.to_nat i
  else if (- n <=? i) && (i <? 0) then l !! Z.to_nat (i + n)
  else None.

(** [l.index(x)]: the first position of [x]; [None] stands for
    [ValueError]. *)
Fixpoint py_list_index (x : Ascii.ascii) (l : list Ascii.ascii) : option Z :=
  match l with
  | [] => None
  | y :: rest =>
      if Ascii.eqb y x then Some 0
      else match py_list_index x rest with
           | Some n => Some (n + 1)
           | None => None
           end
  end.

Definition col_code : list Ascii.ascii :=
  ["a"; "b"; "c"; "d"; "e"; "f"; "g"; "h"; "i"]%char.

Section Conversions.
(** [int(s)] on a [str], with [None] for [ValueError].  Strings are
    taken as their UTF-8 bytes; the first character of [pos_str] matters
    only when it is one of the ASCII letters of [col_code]. *)
Variable int : String.string -> option Z.

(** [convert_to_coords] *)
Definition convert_to_coords (pos_str : String.string) : result (Z * Z) :=
  match pos_str with
  | String.EmptyString => IndexError            (* [pos_str[0]] *)
  | String.String col row =>
      if existsb (Ascii.eqb col) col_code then  (* [col in col_code] *)
        match py_list_index col col_code with
        | Some c =>
            match int row with
            | Some n => Return (n - 1, c)
            | None => ValueError
            end
        | None => ValueError
        end
      else ReturnNone
  end.
End Conversions.

(** [convert_to_algebraic] *)
Definition convert_to_algebraic (xcor ycor : Z) : result (Ascii.ascii * Z) :=
  match py_index col_code xcor with
  | Some ax_cor => Return (ax_cor, ycor + 1)
  | None => IndexError
  end.

(** A sample of [int]: the strings of ASCII decimal digits, on which it
    agrees with Python's; used where a statement is tried on an input. *)
Definition digit_value (ch : Ascii.ascii) : option Z :=
  let n := Z.of_nat (Ascii.nat_of_ascii ch) in
  if (48 <=? n) && (n <=? 57) then Some (n - 48) else None.

Fixpoint digits_value (acc : Z) (s : String.string) : option Z :=
  match s with
  | String.EmptyString => Some acc
  | String.String ch rest =>
      match digit_value ch with
      | Some v => digits_value (acc * 10 + v) rest
      | None => None
      end
  end.

Definition int_of_digits (s : String.string) : option Z :=
  match s with
  | String.EmptyString => None
  | _ => digits_value 0 s
  end.

(** ** The driver, [JanggiMain.main] *)

Definition HEIGHT : Z := 704.
Definition WIDTH : Z := 640.
Definition SQ_SIZE : Z := 64.

(** The square a mouse position names:
    [col = ((location[0]+30)//SQ_SIZE) - 1], [row] likewise from
    [location[1]]; the pair is [(row, col)]. *)
Definition click_square (location : Z * Z) : Z * Z :=
  let col := ((fst location + 30) / SQ_SIZE) - 1 in
  let row := ((snd location + 30) / SQ_SIZE) - 1 in
  (row, col).

(** The variables of [main] that the event loop changes.  [sqSelected] is
    [()] ([None] here) or a pair. *)
Record Driver := {
  gs : JanggiGame;
  sqSelected : option (Z * Z);
  playerClicks : list (Z * Z)
}.

Definition sq_eqb (a : option (Z * Z)) (sq : Z * Z) : bool :=
  match a with
  | Some p => coord_eqb p sq
  | None => false
  end.

Definition py_nth (l : list (Z * Z)) (i : nat) : Z * Z := nth i l (0, 0).

(** The [MOUSEBUTTONDOWN] branch.  In its first arm [sqSelected == ()] is
    a comparison, so [sqSelected] keeps its value.  [animateMove] and
    [display] draw and print only. *)
Definition on_mouse_down (d : Driver) (location : Z * Z) : Driver :=
  let '(row, col) := click_square location in
  if sq_eqb (sqSelected d) (row, col) then
    {| gs := gs d; sqSelected := sqSelected d; playerClicks := [] |}
  else
    let sqSelected' := (row, col) in
    let playerClicks' := playerClicks d ++ [sqSelected'] in
    if (length playerClicks' =? 2)%nat then
      let '(_, gs') := make_move (gs d) (py_nth playerClicks' 0)
                         (py_nth playerClicks' 1) in
      {| gs := gs'; sqSelected := None; playerClicks := [] |}
    else
      {| gs := gs d; sqSelected := Some sqSelected';
         playerClicks := playerClicks' |}.

(** The events the loop acts on, [QUIT] apart (after [p.quit()] the loop
    runs on and the next pygame call fails). *)
Inductive event :=
| MOUSEBUTTONDOWN (location : Z * Z)
| KEYDOWN_z
| KEYDOWN_r
| KEYDOWN_other.

Definition on_event (d : Driver) (ev : event) : Driver :=
  match ev with
  | MOUSEBUTTONDOWN location => on_mouse_down d location
  | KEYDOWN_z =>
      {| gs := undo_move (gs d); sqSelected := sqSelected d;
         playerClicks := playerClicks d |}
  | KEYDOWN_r =>
      {| gs := new_game; sqSelected := None; playerClicks := [] |}
  | KEYDOWN_other => d
  end.

(** [drawGameState(screen, gs, gs.get_valid_moves(), sqSelected)] at the
    end of each turn of the loop: the engine is asked for the legal
    moves. *)
Definition on_frame (d : Driver) : Driver :=
  {| gs := snd (get_valid_moves (gs d)); sqSelected := sqSelected d;
     playerClicks := playerClicks d |}.

(** The indexing [gs._board[r][c]] of [highlightSquares], done when
    [sqSelected != ()]: [None] stands for [IndexError]. *)
Definition highlight_subscript (d : Driver) : option (option cell) :=
  match sqSelected d with
  | None => Some None
  | Some (r, c) =>
      match py_index (_board (gs d)) r with
      | Some line =>
          match py_index line c with
          | Some p => Some (Some p)
          | None => None
          end
      | None => None
      end
  end.

Definition initial_driver : Driver :=
  {| gs := new_game; sqSelected := None; playerClicks := [] |}.

(** The states of the loop: events handled in any order, each turn of the
    loop ending with the draw. *)
Inductive driver_reachable : Driver -> Prop :=
| driver_start : driver_reachable initial_driver
| driver_event d ev : driver_reachable d -> driver_reachable (on_event d ev)
| driver_frame d : driver_reachable d -> driver_reachable (on_frame d).

(** [clear_path b row col d m]: [m] goes from [(row, col)] to the square
    [i] steps away along [d], and every square on the way is empty. *)
Definition clear_path (b : board) (row col : Z) (d : Z * Z) (m : Move) : Prop :=
  exists i, 1 <= i /\
    m = mv b row col (row + fst d * i) (col + snd d * i) /\
    in_grid (row + fst d * i) (col + snd d * i) = true /\
    forall k, 1 <= k < i ->
      in_grid (row + fst d * k) (col + snd d * k) = true ->
      is_empty (get_cell b (row + fst d * k) (col + snd d * k)) = true.

(** What the loop of [get_rook_moves] along [d] knows before it looks at
    the square [n] steps away. *)
Definition rook_inv (b : board) (row col : Z) (d : Z * Z)
    (n : Z) (st : Z * list Move) : Prop :=
  (fst st = 0 ->
   forall k, 1 <= k < n ->
     in_grid (row + fst d * k) (col + snd d * k) = true ->
     is_empty (get_cell b (row + fst d * k) (col + snd d * k)) = true)
  /\ Forall (clear_path b row col d) (snd st).

(** A horse standing on (4,4) of an otherwise empty board. *)
Definition horse_board : board :=
  [ [__; __; __; __; __; __; __; __; __];   (* 0 *)
    [__; __; __; __; __; __; __; __; __];   (* 1 *)
    [__; __; __; __; __; __; __; __; __];   (* 2 *)
    [__; __; __; __; __; __; __; __; __];   (* 3 *)
    [__; __; __; __; RH; __; __; __; __];   (* 4 *)
    [__; __; __; __; __; __; __; __; __];   (* 5 *)
    [__; __; __; __; __; __; __; __; __];   (* 6 *)
    [__; __; __; __; __; __; __; __; __];   (* 7 *)
    [__; __; __; __; __; __; __; __; __];   (* 8 *)
    [__; __; __; __; __; __; __; __; __] ]. (* 9 *)

(** The elephant's only move in the initial position, (0,1) to (3,3). *)
Definition elephant_leap : Move := new_Move (0, 1) (3, 3) initial_board.

(** The general's step (1,4) to (2,4) in the initial position. *)
Definition general_step : Move := new_Move (1, 4) (2, 4) initial_board.

(** A RED cannon on the palace corner (7,3), a BLUE cannon on the centre
    (8,4), the far corner (9,5) empty. *)
Definition palace_cannon_board : board :=
  [ [__; __; __; __; __; __; __; __; __];   (* 0 *)
    [__; __; __; __; RK; __; __; __; __];   (* 1 *)
    [__; __; __; __; __; __; __; __; __];   (* 2 *)
    [__; __; __; __; __; __; __; __; __];   (* 3 *)
    [__; __; __; __; __; __; __; __; __];   (* 4 *)
    [__; __; __; __; __; __; __; __; __];   (* 5 *)
    [__; __; __; __; __; __; __; __; __];   (* 6 *)
    [__; __; __; RC; __; __; __; __; __];   (* 7 *)
    [__; __; __; __; BC; __; __; __; __];   (* 8 *)
    [__; __; __; BK; __; __; __; __; __] ]. (* 9 *)

Definition palace_cannon_leap : Move := new_Move (7, 3) (9, 5) palace_cannon_board.

(** The [team] string of a side, as [is_in_check] spells it. *)
Definition team_of (s : side) : String.string :=
  match s with RED => "red"%string | BLUE => "blue"%string end.

(** * Properties *)

(** Reads the fields of record updates. *)
Ltac fields :=
  cbn [_board _game_state _moveLog _player_turn _checkmate _player_red
       _player_blue with_board with_moveLog with_turn set_game_state
       set_checkmate set_player_red set_player_blue write_cell fst snd] in *.

(** ** Sides and cells *)

Lemma opp_involutive s : opp (opp s) = s.
Proof. destruct s; reflexivity. Qed.

Lemma opp_neq s : opp s <> s.
Proof. destruct s; discriminate. Qed.

Lemma side_eqb_eq a c : side_eqb a c = true <-> a = c.
Proof. destruct a, c; simpl; split; congruence. Qed.

Lemma has_side_opp s p : has_side (opp s) p = true -> has_side s p = false.
Proof. destruct p as [|s' k]; simpl; [easy|]. destruct s, s'; simpl; congruence. Qed.

Lemma is_empty_no_side s p : is_empty p = true -> has_side s p = false.
Proof. destruct p; simpl; congruence. Qed.

Lemma is_general_spec s p : is_general s p = true <-> p = Pc s King.
Proof.
  destruct p as [|s' k]; simpl; [split; congruence|].
  destruct k; try (split; congruence).
  rewrite side_eqb_eq. split; congruence.
Qed.

(** ** Reading and writing cells *)

Section Cells.
Implicit Types (b : board) (i j : nat) (v : cell).

Lemma get_cell_at b r c : get_cell b r c = get_at b (Z.to_nat r) (Z.to_nat c).
Proof. reflexivity. Qed.

Lemma set_cell_at b r c v : set_cell b r c v = set_at b (Z.to_nat r) (Z.to_nat c) v.
Proof. reflexivity. Qed.

Lemma set_at_lookup_same b i j v line :
  b !! i = Some line -> set_at b i j v !! i = Some (<[j := v]> line).
Proof.
  intros H. unfold set_at. rewrite H.
  apply list_lookup_insert_eq. eapply lookup_lt_Some, H.
Qed.

Lemma set_at_lookup_other b i j v i' : i <> i' -> set_at b i j v !! i' = b !! i'.
Proof.
  intros H. unfold set_at. destruct (b !! i); [|reflexivity].
  now apply list_lookup_insert_ne.
Qed.

Lemma set_at_id b i j : set_at b i j (get_at b i j) = b.
Proof.
  unfold set_at, get_at. destruct (b !! i) as [line|] eqn:Hl; [|reflexivity].
  apply list_insert_id. rewrite Hl. f_equal.
  destruct (line !! j) eqn:Hj.
  - symmetry. now apply list_insert_id.
  - symmetry. apply list_insert_ge. now apply lookup_ge_None.
Qed.

Lemma set_at_twice b i j v w : set_at (set_at b i j v) i j w = set_at b i j w.
Proof.
  destruct (b !! i) as [line|] eqn:Hl.
  - unfold set_at at 1. rewrite (set_at_lookup_same _ _ _ _ _ Hl).
    unfold set_at. rewrite Hl.
    now rewrite list_insert_insert_eq, list_insert_insert_eq.
  - unfold set_at. now rewrite !Hl.
Qed.

Lemma set_at_comm b i j v i' j' w :
  (i, j) <> (i', j') ->
  set_at (set_at b i j v) i' j' w = set_at (set_at b i' j' w) i j v.
Proof.
  intros Hne. destruct (decide (i = i')) as [->|Hi].
  - assert (j <> j') by congruence.
    destruct (b !! i') as [line|] eqn:Hl.
    + unfold set_at at 1 3.
      rewrite !(set_at_lookup_same _ _ _ _ _ Hl).
      unfold set_at. rewrite Hl.
      rewrite !list_insert_insert_eq. f_equal.
      now apply list_insert_insert_ne.
    + unfold set_at. now rewrite !Hl.
  - unfold set_at at 1 3.
    rewrite set_at_lookup_other by congruence.
    rewrite set_at_lookup_other by congruence.
    unfold set_at.
    destruct (b !! i) as [l1|], (b !! i') as [l2|]; try reflexivity.
    now apply list_insert_insert_ne.
Qed.

Lemma get_set_at_other b i j v i' j' :
  (i, j) <> (i', j') -> get_at (set_at b i j v) i' j' = get_at b i' j'.
Proof.
  intros Hne. unfold get_at. destruct (decide (i = i')) as [->|Hi].
  - assert (j <> j') by congruence.
    destruct (b !! i') as [line|] eqn:Hl.
    + rewrite (set_at_lookup_same _ _ _ _ _ Hl).
      now rewrite list_lookup_insert_ne.
    + unfold set_at. now rewrite !Hl.
  - now rewrite set_at_lookup_other.
Qed.

Lemma get_set_at_same b i j v line :
  b !! i = Some line -> (j < length line)%nat -> get_at (set_at b i j v) i j = v.
Proof.
  intros Hl Hj. unfold get_at. rewrite (set_at_lookup_same _ _ _ _ _ Hl).
  now rewrite list_lookup_insert_eq.
Qed.

(** Emptying one cell, filling another, then writing back what the two
    cells held gives the board one started from: the write-back of
    [get_valid_moves] and of [undo_move]. *)
Lemma set_at_restore b i j i' j' v :
  set_at (set_at (set_at (set_at b i j Empty) i' j' v) i j (get_at b i j))
    i' j' (get_at b i' j') = b.
Proof.
  destruct (decide ((i, j) = (i', j'))) as [Heq|Hne].
  - inversion Heq; subst. now rewrite !set_at_twice, set_at_id.
  - rewrite (set_at_comm _ i' j' v i j) by congruence.
    now rewrite !set_at_twice, set_at_id, set_at_id.
Qed.
End Cells.

Lemma set_cell_restore b r c r' c' v :
  set_cell (set_cell (set_cell (set_cell b r c Empty) r' c' v) r c (get_cell b r c))
    r' c' (get_cell b r' c') = b.
Proof. rewrite !set_cell_at, !get_cell_at. apply set_at_restore. Qed.

Lemma set_cell_id b r c : set_cell b r c (get_cell b r c) = b.
Proof. rewrite set_cell_at, get_cell_at. apply set_at_id. Qed.

Lemma wf_board_set_cell b r c v : wf_board b -> wf_board (set_cell b r c v).
Proof.
  intros [Hlen Hall]. unfold set_cell.
  destruct (b !! Z.to_nat r) as [line|] eqn:Hl; [|now split].
  split; [now rewrite length_insert|].
  apply Forall_insert; [assumption|].
  rewrite length_insert.
  rewrite Forall_forall in Hall. apply Hall.
  eapply list_elem_of_lookup_2, Hl.
Qed.

Lemma in_grid_spec r c :
  in_grid r c = true <-> 0 <= r <= 9 /\ 0 <= c <= 8.
Proof. unfold in_grid. rewrite !andb_true_iff, !Z.leb_le. lia. Qed.

Lemma get_set_cell_other b r c v r' c' :
  in_grid r c = true -> in_grid r' c' = true -> (r, c) <> (r', c') ->
  get_cell (set_cell b r c v) r' c' = get_cell b r' c'.
Proof.
  rewrite !in_grid_spec. intros H1 H2 Hne.
  rewrite set_cell_at, !get_cell_at. apply get_set_at_other.
  intros Heq. inversion Heq. apply Hne. f_equal; lia.
Qed.

Lemma get_set_cell_same b r c v :
  wf_board b -> in_grid r c = true -> get_cell (set_cell b r c v) r c = v.
Proof.
  intros [Hlen Hall]. rewrite in_grid_spec. intros Hrc.
  rewrite set_cell_at, get_cell_at.
  destruct (lookup_lt_is_Some_2 b (Z.to_nat r)) as [line Hl]; [lia|].
  apply get_set_at_same with line; [assumption|].
  rewrite Forall_forall in Hall.
  rewrite (Hall line); [lia|].
  eapply list_elem_of_lookup_2, Hl.
Qed.

(** ** Loops *)

Lemma Forall_flat_map_each {A B} (P : B -> Prop) (f : A -> list B) (l : list A) :
  (forall x, In x l -> Forall P (f x)) -> Forall P (flat_map f l).
Proof.
  induction l as [|x l IH]; simpl; intros H; [constructor|].
  apply Forall_app_2; [apply H; now left|].
  apply IH. intros y Hy. apply H. now right.
Qed.

Lemma fold_left_invariant {A B} (f : A -> B -> A) (P : A -> Prop) (l : list B) :
  (forall a x, In x l -> P a -> P (f a x)) ->
  forall a, P a -> P (fold_left f l a).
Proof.
  induction l as [|x l IH]; simpl; intros Hstep a Ha; [assumption|].
  apply IH; [intros; apply Hstep; auto|].
  apply Hstep; [now left|assumption].
Qed.

Lemma in_range lo hi i : In i (range lo hi) <-> lo <= i < hi.
Proof.
  unfold range. rewrite <- list_elem_of_In, elem_of_seqZ. lia.
Qed.

Lemma in_squares r c : In (r, c) squares <-> in_grid r c = true.
Proof.
  unfold squares. rewrite in_flat_map, in_grid_spec. split.
  - intros (r' & Hr & Hc). apply in_map_iff in Hc as (c' & Heq & Hc).
    inversion Heq; subst. apply in_range in Hr, Hc. lia.
  - intros [Hr Hc]. exists r. split; [apply in_range; lia|].
    apply in_map_iff. exists c. split; [reflexivity|apply in_range; lia].
Qed.

(** ** What every rule appends *)

Section RuleFacts.
Variable b : board.
Variables row col : Z.

Lemma lands_mv own r c :
  in_grid r c = true -> has_side own (get_cell b r c) = false ->
  lands b row col own (mv b row col r c).
Proof. intros; exists r, c; auto. Qed.

Lemma land_elif_lands own r c :
  in_grid r c = true -> Forall (lands b row col own) (land_elif b row col (opp own) r c).
Proof.
  intros Hg. unfold land_elif.
  destruct (is_empty _) eqn:He.
  - repeat constructor. apply lands_mv; auto using is_empty_no_side.
  - destruct (has_side (opp own) _) eqn:Hs; repeat constructor.
    apply lands_mv; auto using has_side_opp.
Qed.

Lemma land_if_if_lands own r c :
  in_grid r c = true -> Forall (lands b row col own) (land_if_if b row col (opp own) r c).
Proof.
  intros Hg. unfold land_if_if. apply Forall_app_2.
  - destruct (is_empty _) eqn:He; repeat constructor.
    apply lands_mv; auto using is_empty_no_side.
  - destruct (has_side (opp own) _) eqn:Hs; repeat constructor.
    apply lands_mv; auto using has_side_opp.
Qed.

Lemma diagonal_steps_lands own pos zone :
  (forall r c, zone r c = true -> in_grid r c = true) ->
  Forall (lands b row col own) (diagonal_steps b row col pos zone (opp own)).
Proof.
  intros Hz. unfold diagonal_steps.
  apply Forall_flat_map_each; intros i _.
  destruct (_ && _); [|apply List.Forall_nil].
  apply Forall_flat_map_each; intros c _.
  destruct (zone _ _) eqn:Hzone; [|apply List.Forall_nil].
  apply land_if_if_lands; auto.
Qed.

Lemma top_palace_in_grid r c : in_top_palace r c = true -> in_grid r c = true.
Proof.
  unfold in_top_palace. rewrite in_grid_spec, !andb_true_iff, !Z.leb_le. lia.
Qed.

Lemma bottom_palace_in_grid r c : in_bottom_palace r c = true -> in_grid r c = true.
Proof.
  unfold in_bottom_palace. rewrite in_grid_spec, !andb_true_iff, !Z.leb_le. lia.
Qed.

Lemma any_palace_in_grid r c : in_any_palace r c = true -> in_grid r c = true.
Proof.
  unfold in_any_palace. rewrite orb_true_iff.
  intros [H|H]; auto using top_palace_in_grid, bottom_palace_in_grid.
Qed.

#[local] Hint Resolve top_palace_in_grid bottom_palace_in_grid any_palace_in_grid : core.

Lemma pawn_moves_lands own :
  in_grid row col = true -> Forall (lands b row col own) (pawn_moves b row col own).
Proof.
  rewrite in_grid_spec. intros Hrc.
  destruct own; unfold pawn_moves;
    (apply Forall_app_2; [|apply Forall_app_2; [|apply Forall_app_2]]);
    try (apply (diagonal_steps_lands RED); now auto);
    try (apply (diagonal_steps_lands BLUE); now auto);
    (destruct (_ && _) eqn:Hg; [|apply List.Forall_nil]);
    apply andb_true_iff in Hg as [Hg1 Hg2]; apply Z.leb_le in Hg1, Hg2;
    first [apply (land_elif_lands RED) | apply (land_elif_lands BLUE)];
    apply in_grid_spec; lia.
Qed.

Lemma rook_slide_lands own d : Forall (lands b row col own) (rook_slide b row col own d).
Proof.
  unfold rook_slide.
  apply (fold_left_invariant _ (fun st => Forall (lands b row col own) (snd st)));
    [|apply List.Forall_nil].
  intros [mark out] i _ Hout; simpl in *.
  destruct (in_grid _ _) eqn:Hg; [|assumption].
  destruct (mark =? 0); [|assumption].
  destruct (has_side own _) eqn:Hown; [assumption|].
  destruct (is_empty _) eqn:He.
  - simpl. apply Forall_app_2; [assumption|]. repeat constructor.
    now apply lands_mv.
  - destruct (has_side (opp own) _) eqn:Hopp; simpl; [|assumption].
    apply Forall_app_2; [assumption|]. repeat constructor.
    now apply lands_mv.
Qed.

Lemma rook_moves_lands own : Forall (lands b row col own) (rook_moves b row col own).
Proof.
  destruct own; unfold rook_moves.
  - apply Forall_flat_map_each; intros d _. apply Forall_app_2.
    + apply rook_slide_lands.
    + apply (diagonal_steps_lands RED); auto.
  - apply Forall_app_2.
    + apply Forall_flat_map_each; intros d _. apply rook_slide_lands.
    + apply (diagonal_steps_lands BLUE); auto.
Qed.

Lemma horse_leg_lands own r c : Forall (lands b row col own) (horse_leg b row col own r c).
Proof.
  unfold horse_leg. destruct (in_grid r c) eqn:Hg; [|apply List.Forall_nil].
  simpl. destruct (has_side own _) eqn:Hs; simpl; repeat constructor.
  now apply lands_mv.
Qed.

Lemma horse_moves_lands own : Forall (lands b row col own) (horse_moves b row col own).
Proof.
  unfold horse_moves. apply Forall_flat_map_each; intros [d [l r]] _.
  destruct (in_grid _ _); [|apply List.Forall_nil].
  destruct (_ =? 0); [|apply List.Forall_nil].
  apply Forall_app_2; apply horse_leg_lands.
Qed.

Lemma cannon_slide_lands own d : Forall (lands b row col own) (cannon_slide b row col own d).
Proof.
  unfold cannon_slide.
  apply (fold_left_invariant _ (fun st => Forall (lands b row col own) (snd st)));
    [|apply List.Forall_nil].
  intros [mark out] i _ Hout; simpl in *.
  destruct (in_grid _ _) eqn:Hg; [|assumption].
  destruct (is_empty _) eqn:He; simpl.
  - destruct (mark =? 0); simpl; [assumption|].
    destruct (mark =? 1); simpl; [|assumption].
    apply Forall_app_2; [assumption|]. repeat constructor.
    apply lands_mv; auto using is_empty_no_side.
  - destruct (mark =? 0); simpl; [destruct (is_cannon _); assumption|].
    rewrite andb_false_r.
    destruct (mark =? 1); simpl; [|assumption].
    destruct (has_side (opp own) _) eqn:Hopp; simpl.
    + apply Forall_app_2; [assumption|]. repeat constructor.
      apply lands_mv; auto using has_side_opp.
    + destruct (has_side own _); assumption.
Qed.

Lemma cannon_diagonals_lands own :
  Forall (lands b row col own) (cannon_diagonals b row col own).
Proof.
  unfold cannon_diagonals.
  apply Forall_flat_map_each; intros i _.
  destruct (_ && _); [|apply List.Forall_nil].
  apply Forall_flat_map_each; intros c _.
  destruct (in_any_palace (row + fst c) _); [|apply List.Forall_nil].
  destruct (negb (is_empty _)); [|apply List.Forall_nil].
  destruct (in_any_palace (row + fst c * 2) _) eqn:Hz; [|apply List.Forall_nil].
  destruct (has_side own _) eqn:Hs; simpl; repeat constructor.
  apply lands_mv; auto.
Qed.

Lemma cannon_moves_lands own : Forall (lands b row col own) (cannon_moves b row col own).
Proof.
  unfold cannon_moves. apply Forall_app_2.
  - apply Forall_flat_map_each; intros d _. apply cannon_slide_lands.
  - apply cannon_diagonals_lands.
Qed.

Lemma elephant_leg_lands own r c l :
  Forall (lands b row col own) (elephant_leg b row col own r c l).
Proof.
  unfold elephant_leg.
  destruct (in_grid (r + fst l) _); [|apply List.Forall_nil].
  destruct (in_grid (r + fst l * 2) _) eqn:Hg; [|apply List.Forall_nil].
  destruct (_ && negb _) eqn:Hc; repeat constructor.
  apply andb_true_iff in Hc as [_ Hc]. apply negb_true_iff in Hc.
  now apply lands_mv.
Qed.

Lemma elephant_moves_lands own : Forall (lands b row col own) (elephant_moves b row col own).
Proof.
  unfold elephant_moves. apply Forall_flat_map_each; intros [d [l r]] _.
  destruct (in_grid _ _); [|apply List.Forall_nil].
  destruct (_ =? 0); [|apply List.Forall_nil].
  apply Forall_app_2; apply elephant_leg_lands.
Qed.

Lemma palace_moves_lands own : Forall (lands b row col own) (palace_moves b row col own).
Proof.
  destruct own; unfold palace_moves; apply Forall_app_2;
    try (apply (diagonal_steps_lands RED); now auto);
    try (apply (diagonal_steps_lands BLUE); now auto);
    apply Forall_flat_map_each; intros d _;
    (destruct (_ _ _) eqn:Hz; [|apply List.Forall_nil]);
    first [apply (land_elif_lands RED) | apply (land_elif_lands BLUE)]; auto.
Qed.
End RuleFacts.

(** ** Pseudo moves *)

Lemma lands_pseudo_ok b turn row col m :
  in_grid row col = true -> has_side turn (get_cell b row col) = true ->
  lands b row col turn m -> pseudo_ok b turn m.
Proof.
  intros Hg Hs (r & c & -> & Hg' & Hs'). unfold pseudo_ok, mv, new_Move; simpl.
  auto.
Qed.

Lemma scan_square_ok b turn moves r c :
  in_grid r c = true -> Forall (pseudo_ok b turn) moves ->
  Forall (pseudo_ok b turn) (scan_square b turn moves (r, c)).
Proof.
  intros Hg Hmoves. unfold scan_square.
  destruct (_ || _) eqn:Htest; [|assumption].
  assert (Hs : has_side turn (get_cell b r c) = true).
  { destruct turn; simpl in Htest;
      rewrite ?andb_true_r, ?andb_false_r, ?orb_false_r in Htest; assumption. }
  destruct (get_cell b r c) as [|s k] eqn:Hp; [assumption|].
  rewrite <- Hp in Hs.
  destruct k;
    unfold get_pawn_moves, get_rook_moves, get_horse_moves, get_cannon_moves,
      get_elephant_moves, get_guards_moves, get_general_moves;
    (apply Forall_app_2; [assumption|]);
    eapply Forall_impl; try (intros m Hm; eapply lands_pseudo_ok; eassumption).
  - now apply pawn_moves_lands.
  - apply rook_moves_lands.
  - apply horse_moves_lands.
  - apply cannon_moves_lands.
  - apply elephant_moves_lands.
  - apply palace_moves_lands.
  - apply palace_moves_lands.
Qed.

Lemma all_possible_moves_ok b turn : Forall (pseudo_ok b turn) (all_possible_moves b turn).
Proof.
  unfold all_possible_moves.
  apply (fold_left_invariant _ (Forall (pseudo_ok b turn))); [|constructor].
  intros moves [r c] Hin Hmoves. apply in_squares in Hin.
  now apply scan_square_ok.
Qed.

Lemma pseudo_ok_in b turn m : In m (all_possible_moves b turn) -> pseudo_ok b turn m.
Proof.
  intros Hin. pose proof (all_possible_moves_ok b turn) as H.
  rewrite Forall_forall in H. apply H. now apply list_elem_of_In.
Qed.

Lemma pseudo_ok_moves b turn m :
  pseudo_ok b turn m ->
  (get_start_row m, get_start_col m) <> (get_end_row m, get_end_col m).
Proof.
  intros (_ & _ & Hs & He & _) Heq. inversion Heq as [[Hr Hc]].
  rewrite Hr, Hc in Hs. congruence.
Qed.

Lemma pseudo_ok_pieces b turn m :
  pseudo_ok b turn m ->
  get_piece_moved m = get_cell b (get_start_row m) (get_start_col m) /\
  get_piece_captured m = get_cell b (get_end_row m) (get_end_col m).
Proof. intros (_ & _ & _ & _ & Hm). rewrite Hm at 1 4. now simpl. Qed.

(** From here on the list of pseudo moves is only used through
    [all_possible_moves_ok]; unfolding it duplicates the accumulator in
    every branch of [scan_square]. *)
Opaque all_possible_moves.

(** ** Frame of the helpers of the legality filter *)

Lemma agree_refl g : agree g g.
Proof. repeat split. Qed.

Lemma agree_trans g1 g2 g3 : agree g1 g2 -> agree g2 g3 -> agree g1 g3.
Proof. unfold agree. intuition congruence. Qed.

Lemma turn_set_player_turn g :
  _player_turn (set_player_turn g) = opp (_player_turn g).
Proof. unfold set_player_turn. now destruct (_player_turn g). Qed.

Lemma board_set_player_turn g : _board (set_player_turn g) = _board g.
Proof. unfold set_player_turn. now destruct (_player_turn g). Qed.

Lemma set_player_turn_twice g : set_player_turn (set_player_turn g) = g.
Proof. destruct g as [b s l t c pr pb]. now destruct t. Qed.

Lemma square_under_attack_spec g r c :
  square_under_attack g r c = (square_attacked (_board g) (_player_turn g) r c, g).
Proof.
  unfold square_under_attack, square_attacked, get_all_possible_moves.
  now rewrite set_player_turn_twice, turn_set_player_turn, board_set_player_turn.
Qed.

Lemma in_check_from_spec g sqs :
  fst (in_check_from g sqs) = general_check (_board g) (_player_turn g) sqs /\
  agree g (snd (in_check_from g sqs)).
Proof.
  induction sqs as [|[r c] rest IH]; [simpl; auto using agree_refl|].
  cbn [in_check_from general_check].
  rewrite square_under_attack_spec.
  destruct (_player_turn g) eqn:Ht; cbn [side_eqb].
  - destruct (is_general RED _); [now repeat split|].
    destruct (is_general BLUE _); assumption.
  - destruct (is_general RED _) eqn:Hr, (is_general BLUE _) eqn:Hb;
      try assumption; try (now repeat split).
    apply is_general_spec in Hr. apply is_general_spec in Hb. congruence.
Qed.

Lemma in_check_spec g :
  fst (in_check g) = general_check (_board g) (_player_turn g) squares /\
  agree g (snd (in_check g)).
Proof. apply in_check_from_spec. Qed.

(** ** [test_move] on a pseudo move *)

Lemma move_matches_spec s t m :
  move_matches s t m = true <->
  (get_start_row m, get_start_col m) = s /\ (get_end_row m, get_end_col m) = t.
Proof.
  destruct s as [sr sc], t as [tr tc]. unfold move_matches; simpl.
  rewrite !andb_true_iff, !Z.eqb_eq. split.
  - intros [[-> ->] [-> ->]]. auto.
  - intros [H1 H2]. inversion H1; inversion H2; auto.
Qed.

Lemma coord_eqb_spec x y : coord_eqb x y = true <-> x = y.
Proof.
  destruct x, y. unfold coord_eqb; simpl. rewrite andb_true_iff, !Z.eqb_eq.
  split; [intros [-> ->]; reflexivity|intros H; inversion H; auto].
Qed.

Lemma find_pseudo b turn (l : list Move) m :
  Forall (pseudo_ok b turn) l -> In m l ->
  exists m', find (move_matches (get_start_row m, get_start_col m)
                     (get_end_row m, get_end_col m)) l = Some m' /\ m' = m.
Proof.
  intros Hall Hin.
  destruct (find _ l) as [m'|] eqn:Hf.
  - exists m'. split; [reflexivity|].
    apply find_some in Hf as [Hin' Hm]. apply move_matches_spec in Hm as [Hs He].
    rewrite Forall_forall in Hall.
    pose proof (Hall m' ltac:(now apply list_elem_of_In)) as (_ & _ & _ & _ & E').
    pose proof (Hall m ltac:(now apply list_elem_of_In)) as (_ & _ & _ & _ & E).
    inversion Hs; inversion He. rewrite E', E. congruence.
  - exfalso. apply (find_none _ _ Hf) in Hin.
    assert (move_matches (get_start_row m, get_start_col m)
              (get_end_row m, get_end_col m) m = true)
      by now apply move_matches_spec.
    congruence.
Qed.

Lemma test_move_pseudo g m :
  In m (get_all_possible_moves g) ->
  test_move g (get_start_row m, get_start_col m) (get_end_row m, get_end_col m)
  = (true, set_player_turn (with_board g (play (_board g) m))).
Proof.
  intros Hin. unfold test_move, get_all_possible_moves in *.
  pose proof (pseudo_ok_in _ _ _ Hin) as Hok.
  destruct (coord_eqb _ _) eqn:Heq.
  - apply coord_eqb_spec in Heq. apply pseudo_ok_moves in Hok. contradiction.
  - destruct (find_pseudo _ _ _ m (all_possible_moves_ok _ _) Hin) as (m' & -> & ->).
    reflexivity.
Qed.

(** ** [get_valid_moves] is a filter and restores what it touches *)

Lemma valid_step_spec g kept m :
  In m (get_all_possible_moves g) ->
  exists g', valid_step (g, kept) m
             = (g', if leaves_in_check (_board g) (_player_turn g) m
                    then kept else m :: kept)
             /\ agree g g'.
Proof.
  intros Hin. unfold valid_step.
  rewrite (test_move_pseudo _ _ Hin), set_player_turn_twice.
  pose proof (in_check_spec (with_board g (play (_board g) m))) as [Hchk Hag].
  destruct (in_check _) as [chk g3]. cbn [fst snd _board _player_turn with_board] in *.
  eexists. split.
  - rewrite Hchk. unfold leaves_in_check. reflexivity.
  - destruct Hag as (Hb & Ht & Hl & Hs & Hc).
    destruct (pseudo_ok_pieces _ _ _ (pseudo_ok_in _ _ _ Hin)) as [Hpm Hpc].
    unfold agree. fields.
    rewrite Hb, Hpm, Hpc. unfold play. rewrite Hpm.
    rewrite set_cell_restore. auto.
Qed.

Lemma valid_fold_spec g0 (l : list Move) :
  (forall m, In m l -> In m (all_possible_moves (_board g0) (_player_turn g0))) ->
  forall g kept, agree g0 g ->
  exists g', fold_left valid_step l (g, kept)
             = (g', rev (List.filter
                           (fun m => negb (leaves_in_check (_board g0) (_player_turn g0) m)) l)
                    ++ kept)
             /\ agree g0 g'.
Proof.
  induction l as [|m l IH]; intros Hl g kept Hag; cbn [fold_left List.filter].
  - now exists g.
  - assert (Hin : In m (get_all_possible_moves g)).
    { unfold get_all_possible_moves. destruct Hag as (-> & -> & _).
      apply Hl. now left. }
    destruct (valid_step_spec g kept m Hin) as (g1 & -> & Hag1).
    destruct (IH (fun x Hx => Hl x (or_intror Hx)) g1
                (if leaves_in_check (_board g) (_player_turn g) m
                 then kept else m :: kept)
                (agree_trans _ _ _ Hag Hag1)) as (g' & -> & Hag').
    exists g'. split; [|assumption].
    destruct Hag as (-> & -> & _).
    destruct (leaves_in_check _ _ m); cbn [negb rev]; [reflexivity|].
    now rewrite <- app_assoc.
Qed.

Lemma get_valid_moves_spec g :
  fst (get_valid_moves g) = legal_moves (_board g) (_player_turn g) /\
  agree g (snd (get_valid_moves g)).
Proof.
  unfold get_valid_moves, get_all_possible_moves.
  destruct (valid_fold_spec g (rev (all_possible_moves (_board g) (_player_turn g)))
              ltac:(intros m Hm; now apply in_rev) g [] (agree_refl g))
    as (g' & -> & Hag).
  cbn [fst snd]. split; [|assumption].
  unfold legal_moves. rewrite app_nil_r.
  generalize (fun m => negb (leaves_in_check (_board g) (_player_turn g) m)) as f.
  generalize (all_possible_moves (_board g) (_player_turn g)) as l.
  intros l f. induction l as [|x l IH]; [reflexivity|].
  cbn [rev List.filter].
  rewrite List.filter_app, rev_app_distr, IH. cbn [List.filter].
  now destruct (f x).
Qed.

(** ** [make_move], path by path *)

Lemma make_move_terminal g x y :
  _game_state g <> UNFINISHED ->
  exists g', make_move g x y = (false, g') /\ agree g g'.
Proof.
  intros Hs. unfold make_move.
  pose proof (get_valid_moves_spec g) as [_ Hag].
  destruct (get_valid_moves g) as [vm g1]. fields.
  exists g1. split; [|assumption].
  destruct Hag as (_ & _ & _ & Hs1 & _). rewrite Hs1.
  destruct (_game_state g); congruence.
Qed.

Lemma make_move_pass g x :
  _game_state g = UNFINISHED ->
  exists g', make_move g x x = (true, g') /\
             _board g' = _board g /\ _moveLog g' = _moveLog g /\
             _game_state g' = UNFINISHED /\
             _player_turn g' = opp (_player_turn g).
Proof.
  intros Hs. unfold make_move.
  pose proof (get_valid_moves_spec g) as [_ Hag].
  destruct (get_valid_moves g) as [vm g1]. fields.
  destruct Hag as (Hb & Ht & Hl & Hs1 & _). rewrite Hs1, Hs.
  assert (coord_eqb x x = true) as -> by now apply coord_eqb_spec.
  eexists. split; [reflexivity|].
  rewrite board_set_player_turn, turn_set_player_turn.
  destruct g1 as [b1 s1 l1 t1 c1 pr1 pb1]. fields.
  destruct t1; cbn; rewrite <- ?Ht; repeat split; congruence.
Qed.

Lemma make_move_unmatched g x y :
  _game_state g = UNFINISHED -> x <> y ->
  find (move_matches x y) (legal_moves (_board g) (_player_turn g)) = None ->
  exists g', make_move g x y = (false, g') /\ agree g g'.
Proof.
  intros Hs Hxy Hf. unfold make_move.
  pose proof (get_valid_moves_spec g) as [Hvm Hag].
  destruct (get_valid_moves g) as [vm g1]. fields. subst vm.
  exists g1. split; [|assumption].
  destruct Hag as (_ & _ & _ & Hs1 & _). rewrite Hs1, Hs, Hf.
  destruct (coord_eqb x y) eqn:He; [|reflexivity].
  apply coord_eqb_spec in He. contradiction.
Qed.

Lemma make_move_applied g x y move :
  _game_state g = UNFINISHED -> x <> y ->
  find (move_matches x y) (legal_moves (_board g) (_player_turn g)) = Some move ->
  exists g', make_move g x y = (true, g') /\
    _board g' = play (_board g) move /\
    _moveLog g' = _moveLog g ++ [move] /\
    _player_turn g' = (if is_mate (play (_board g) move) (opp (_player_turn g))
                       then _player_turn g else opp (_player_turn g)) /\
    _game_state g' = (if is_mate (play (_board g) move) (opp (_player_turn g))
                      then won_by (_player_turn g) else UNFINISHED).
Proof.
  intros Hs Hxy Hf. unfold make_move.
  pose proof (get_valid_moves_spec g) as [Hvm Hag].
  destruct (get_valid_moves g) as [vm g1]. fields. subst vm.
  destruct Hag as (Hb & Ht & Hl & Hs1 & _). rewrite Hs1, Hs, Hf.
  destruct (coord_eqb x y) eqn:He; [apply coord_eqb_spec in He; contradiction|].
  match goal with |- context [get_valid_moves ?h] => set (g2 := h) end.
  assert (Hg2 : _board g2 = play (_board g) move /\
                _player_turn g2 = opp (_player_turn g) /\
                _moveLog g2 = _moveLog g ++ [move] /\
                _game_state g2 = UNFINISHED).
  { unfold g2. rewrite board_set_player_turn, turn_set_player_turn.
    destruct g1 as [b1 s1 l1 t1 c1 pr1 pb1]. fields. subst.
    unfold play. destruct (_player_turn g); cbn; auto. }
  clearbody g2. destruct Hg2 as (Hb2 & Ht2 & Hl2 & Hs2).
  pose proof (get_valid_moves_spec g2) as [Hvm2 Hag2].
  destruct (get_valid_moves g2) as [om g3]. fields. subst om.
  destruct Hag2 as (Hb3 & Ht3 & Hl3 & Hs3 & _).
  pose proof (in_check_spec g3) as [Hchk Hag3].
  destruct (in_check g3) as [chk g4]. fields. subst chk.
  destruct Hag3 as (Hb4 & Ht4 & Hl4 & Hs4 & _).
  unfold is_mate. rewrite Hb3, Ht3, Hb2, Ht2.
  destruct g2 as [b2 s2 l2 t2 c2 pr2 pb2], g3 as [b3 s3 l3 t3 c3 pr3 pb3],
    g4 as [b4 s4 l4 t4 c4 pr4 pb4].
  fields. subst.
  generalize (general_check (play (_board g) move) (opp (_player_turn g)) squares).
  generalize (legal_moves (play (_board g) move) (opp (_player_turn g))).
  intros om chk. eexists. split; [reflexivity|].
  destruct (_player_turn g), (length om =? 0)%nat, (is_True chk); cbn; auto.
Qed.

Lemma legal_moves_pseudo b turn m :
  In m (legal_moves b turn) ->
  In m (all_possible_moves b turn) /\ leaves_in_check b turn m = false.
Proof.
  unfold legal_moves. rewrite filter_In, negb_true_iff. auto.
Qed.

Lemma make_move_cases g x y :
  (_board (snd (make_move g x y)) = _board g /\
   _moveLog (snd (make_move g x y)) = _moveLog g) \/
  (exists move, In move (legal_moves (_board g) (_player_turn g)) /\
     _board (snd (make_move g x y)) = play (_board g) move /\
     _moveLog (snd (make_move g x y)) = _moveLog g ++ [move]).
Proof.
  destruct (_game_state g) eqn:Hs.
  - destruct (coord_eqb x y) eqn:He.
    + apply coord_eqb_spec in He as ->.
      destruct (make_move_pass g y Hs) as (g' & -> & Hb & Hl & _). now left.
    + assert (Hxy : x <> y).
      { intros ->. assert (coord_eqb y y = true) by now apply coord_eqb_spec.
        congruence. }
      destruct (find (move_matches x y) (legal_moves (_board g) (_player_turn g)))
        as [move|] eqn:Hf.
      * destruct (make_move_applied g x y move Hs Hxy Hf) as (g' & -> & Hb & Hl & _).
        right. exists move. apply find_some in Hf as [Hin _]. auto.
      * destruct (make_move_unmatched g x y Hs Hxy Hf) as (g' & -> & Hb & _ & Hl & _).
        now left.
  - destruct (make_move_terminal g x y) as (g' & -> & Hb & _ & Hl & _);
      [congruence|now left].
  - destruct (make_move_terminal g x y) as (g' & -> & Hb & _ & Hl & _);
      [congruence|now left].
Qed.

(** ** [undo_move] *)

Lemma pop_nil : pop [] = None.
Proof. reflexivity. Qed.

Lemma pop_snoc l m : pop (l ++ [m]) = Some (m, l).
Proof. unfold pop. rewrite rev_app_distr. cbn. now rewrite rev_involutive. Qed.

Lemma undo_move_empty g : _moveLog g = [] -> undo_move g = g.
Proof. intros H. unfold undo_move. now rewrite H. Qed.

Lemma undo_move_snoc g l m :
  _moveLog g = l ++ [m] ->
  _board (undo_move g)
  = set_cell (set_cell (_board g) (get_start_row m) (get_start_col m) (get_piece_moved m))
      (get_end_row m) (get_end_col m) (get_piece_captured m) /\
  _moveLog (undo_move g) = l /\
  _player_turn (undo_move g) = opp (_player_turn g) /\
  _game_state (undo_move g) = _game_state g.
Proof.
  intros H. unfold undo_move. rewrite H, pop_snoc.
  rewrite board_set_player_turn, turn_set_player_turn.
  destruct g as [b s lg t c pr pb]. fields. destruct t; cbn; auto.
Qed.

Lemma undo_play b turn m :
  pseudo_ok b turn m ->
  set_cell (set_cell (play b m) (get_start_row m) (get_start_col m) (get_piece_moved m))
    (get_end_row m) (get_end_col m) (get_piece_captured m) = b.
Proof.
  intros Hok. destruct (pseudo_ok_pieces _ _ _ Hok) as [Hpm Hpc].
  unfold play. rewrite Hpc. rewrite Hpm at 2. apply set_cell_restore.
Qed.

(** ** Boards of reachable states *)

Lemma reachable_played g : reachable g -> played (_board g) (_moveLog g).
Proof.
  induction 1 as [|g x y Hr IH|g Hr IH|g Hr IH|g Hr IH|g r c Hr IH|g Hr IH
                 |g s Hr IH|g v Hr IH|g v Hr IH|g v Hr IH];
    try assumption.
  - constructor.
  - destruct (make_move_cases g x y) as [[-> ->]|(move & Hin & -> & ->)];
      [assumption|].
    apply legal_moves_pseudo in Hin as [Hin _].
    econstructor; [eassumption|]. eapply pseudo_ok_in, Hin.
  - destruct (_moveLog g) as [|m0 l0] eqn:Hl using rev_ind.
    + rewrite (undo_move_empty g Hl). now rewrite Hl.
    + clear IHl0. destruct (undo_move_snoc g _ _ Hl) as (-> & -> & _).
      inversion IH as [Hb Hnil|b log turn m Hp Hok Hb Hlog].
      * destruct l0; discriminate.
      * apply app_inj_tail in Hlog as [-> ->].
        now rewrite (undo_play _ _ _ Hok).
  - destruct (get_valid_moves_spec g) as [_ (-> & _ & -> & _)]. assumption.
  - destruct (in_check_spec g) as [_ (-> & _ & -> & _)]. assumption.
  - now rewrite square_under_attack_spec.
  - rewrite board_set_player_turn.
    destruct g as [b s l t c pr pb]. now destruct t.
Qed.

Lemma wf_initial_board : wf_board initial_board.
Proof. split; [reflexivity|]. repeat constructor. Qed.

Lemma wf_play b m : wf_board b -> wf_board (play b m).
Proof. intros H. unfold play. now repeat apply wf_board_set_cell. Qed.

Lemma played_wf b log : played b log -> wf_board b.
Proof. induction 1; auto using wf_initial_board, wf_play. Qed.

Lemma get_play b turn m r c :
  wf_board b -> pseudo_ok b turn m -> in_grid r c = true ->
  get_cell (play b m) r c =
    if coord_eqb (r, c) (get_end_row m, get_end_col m)
    then get_cell b (get_start_row m) (get_start_col m)
    else if coord_eqb (r, c) (get_start_row m, get_start_col m) then Empty
    else get_cell b r c.
Proof.
  intros Hwf Hok Hg.
  destruct (pseudo_ok_pieces _ _ _ Hok) as [Hpm _].
  destruct Hok as (Hgs & Hge & _). unfold play. rewrite Hpm.
  destruct (coord_eqb (r, c) (get_end_row m, _)) eqn:He.
  - apply coord_eqb_spec in He. inversion He; subst.
    apply get_set_cell_same; [now apply wf_board_set_cell|assumption].
  - rewrite get_set_cell_other; [|assumption|assumption|].
    2:{ intros E. rewrite E in He.
        assert (coord_eqb (r, c) (r, c) = true) by now apply coord_eqb_spec.
        congruence. }
    destruct (coord_eqb (r, c) (get_start_row m, _)) eqn:Hs.
    + apply coord_eqb_spec in Hs. inversion Hs; subst.
      now apply get_set_cell_same.
    + apply get_set_cell_other; [assumption|assumption|].
      intros E. rewrite E in Hs.
      assert (coord_eqb (r, c) (r, c) = true) by now apply coord_eqb_spec.
      congruence.
Qed.

Lemma one_general_play b turn m s :
  wf_board b -> pseudo_ok b turn m -> one_general b s -> one_general (play b m) s.
Proof.
  intros Hwf Hok Hone r c r' c' Hg Hg'.
  rewrite (get_play b turn m r c Hwf Hok Hg), (get_play b turn m r' c' Hwf Hok Hg').
  pose proof Hok as (Hgs & Hge & _).
  destruct (coord_eqb (r, c) (get_end_row m, _)) eqn:He;
    destruct (coord_eqb (r', c') (get_end_row m, _)) eqn:He'.
  - apply coord_eqb_spec in He, He'. congruence.
  - destruct (coord_eqb (r', c') (get_start_row m, _)) eqn:Hs'; [discriminate|].
    intros H1 H2. pose proof (Hone _ _ _ _ Hgs Hg' H1 H2) as E.
    symmetry in E. apply coord_eqb_spec in E. congruence.
  - destruct (coord_eqb (r, c) (get_start_row m, _)) eqn:Hs; [discriminate|].
    intros H1 H2. pose proof (Hone _ _ _ _ Hgs Hg H2 H1) as E.
    symmetry in E. apply coord_eqb_spec in E. congruence.
  - destruct (coord_eqb (r, c) (get_start_row m, _)); [discriminate|].
    destruct (coord_eqb (r', c') (get_start_row m, _)); [discriminate|].
    now apply Hone.
Qed.

Lemma grid_cases r c :
  in_grid r c = true ->
  In r [0; 1; 2; 3; 4; 5; 6; 7; 8; 9] /\ In c [0; 1; 2; 3; 4; 5; 6; 7; 8].
Proof. rewrite in_grid_spec. simpl. lia. Qed.

Lemma general_initial_board s r c :
  in_grid r c = true -> get_cell initial_board r c = Pc s King ->
  (r, c) = match s with RED => (1, 4) | BLUE => (8, 4) end.
Proof.
  intros Hg. apply grid_cases in Hg as [Hr Hc].
  simpl in Hr, Hc.
  repeat (destruct Hr as [<-|Hr]; [|]); try contradiction;
    repeat (destruct Hc as [<-|Hc]; [|]); try contradiction;
    vm_compute; intros H; inversion H; reflexivity.
Qed.

Lemma one_general_initial_board s : one_general initial_board s.
Proof.
  intros r c r' c' Hg Hg' H H'.
  rewrite (general_initial_board s r c Hg H).
  now rewrite (general_initial_board s r' c' Hg' H').
Qed.

Lemma played_one_general b log s : played b log -> one_general b s.
Proof.
  induction 1 as [|b log turn m Hp IH Hok].
  - apply one_general_initial_board.
  - eapply one_general_play; eauto using played_wf.
Qed.

(** ** The cannon's orthogonal slide *)

Lemma fold_range_invariant {A} (f : A -> Z -> A) (P : Z -> A -> Prop) (lo : Z) :
  forall (n : nat) (a : A),
    P lo a ->
    (forall i x, lo <= i < lo + Z.of_nat n -> P i x -> P (i + 1) (f x i)) ->
    P (lo + Z.of_nat n) (fold_left f (seqZ lo (Z.of_nat n)) a).
Proof.
  intros n. revert lo. induction n as [|n IH]; intros lo a Ha Hstep.
  - cbn. now rewrite Z.add_0_r.
  - rewrite seqZ_cons by lia. cbn [fold_left].
    replace (Z.pred (Z.of_nat (S n))) with (Z.of_nat n) by lia.
    replace (lo + Z.of_nat (S n)) with (Z.succ lo + Z.of_nat n) by lia.
    apply IH.
    + replace (Z.succ lo) with (lo + 1) by lia. apply Hstep; [lia|assumption].
    + intros i x Hi. apply Hstep. lia.
Qed.

Lemma not_empty_has_side own p :
  is_empty p = false -> has_side (opp own) p = false -> has_side own p = true.
Proof. destruct p as [|s k], own; try destruct s; simpl; congruence. Qed.

Lemma cannon_step_inv b row col own d i st :
  1 <= i ->
  cannon_inv b row col own d i st ->
  cannon_inv b row col own d (i + 1) (cannon_step b row col own d st i).
Proof.
  destruct st as [mark out]. unfold cannon_inv. cbn [fst snd].
  intros Hi [Hmark Hout]. unfold cannon_step.
  set (p := get_cell b (row + fst d * i) (col + snd d * i)) in *.
  destruct (in_grid (row + fst d * i) (col + snd d * i)) eqn:Hg.
  2:{ cbn [fst snd]. split; [|assumption].
      destruct Hmark as [[-> H0] | [[-> (j & Hj & H1)] | -> ]]; [left|right; left|right; right];
        try (split; [reflexivity|]); try reflexivity.
      - intros k Hk Hgk. destruct (Z.eq_dec k i) as [->|]; [congruence|].
        apply H0; [lia|assumption].
      - exists j. destruct H1 as (Hgj & Hej & Hcj & Hrest).
        repeat split; try assumption; try lia.
        intros k Hk Hkj Hgk. destruct (Z.eq_dec k i) as [->|]; [congruence|].
        apply Hrest; [lia|assumption|assumption]. }
  destruct Hmark as [[-> H0] | [[-> (j & Hj & Hgj & Hej & Hcj & Hrest)] | -> ]];
    cbn [Z.eqb Pos.eqb andb negb].
  - (* no piece met so far *)
    destruct (is_empty p) eqn:He; cbn [negb andb fst snd].
    + split; [left; split; [reflexivity|]|assumption].
      intros k Hk Hgk. destruct (Z.eq_dec k i) as [->|]; [assumption|].
      apply H0; [lia|assumption].
    + destruct (is_cannon p) eqn:Hc; cbn [fst snd]; (split; [|assumption]).
      * now right; right.
      * right; left. split; [reflexivity|]. exists i.
        repeat split; try assumption; try lia.
        intros k Hk Hki Hgk. apply H0; [lia|assumption].
  - (* one screen met, at [j] *)
    assert (Hmv :
      is_empty p = true \/ has_side (opp own) p = true ->
      jumped b row col own d (mv b row col (row + fst d * i) (col + snd d * i))).
    { intros dest_ok. exists i, j.
      repeat split; try assumption; try lia. }
    destruct (is_empty p) eqn:He; cbn [negb andb fst snd].
    + split.
      * right; left. split; [reflexivity|]. exists j.
        repeat split; try assumption; try lia.
        intros k Hk Hkj Hgk. destruct (Z.eq_dec k i) as [->|]; [assumption|].
        apply Hrest; [lia|assumption|assumption].
      * apply Forall_app_2; [assumption|]. repeat constructor.
        apply Hmv. now left.
    + destruct (has_side (opp own) p) eqn:Ho; cbn [fst snd].
      * split; [now right; right|].
        apply Forall_app_2; [assumption|]. repeat constructor.
        apply Hmv. now right.
      * rewrite (not_empty_has_side own _ He Ho). cbn [fst snd].
        split; [now right; right|assumption].
  - (* the slide is over *)
    rewrite !andb_false_r. cbn [fst snd].
    destruct (is_empty p); cbn [negb andb fst snd]; split; auto.
Qed.

Lemma cannon_slide_jumped b row col own d :
  Forall (jumped b row col own d) (cannon_slide b row col own d).
Proof.
  unfold cannon_slide, range.
  change (10 - 1) with (Z.of_nat 9).
  apply (fold_range_invariant (cannon_step b row col own d)
           (cannon_inv b row col own d) 1 9 (0, [])).
  - split; [left; split; [reflexivity|intros; lia]|constructor].
  - intros i st Hi. apply cannon_step_inv. lia.
Qed.

Lemma cannon_diagonals_both_change b row col own m :
  In m (cannon_diagonals b row col own) ->
  get_end_row m <> row /\ get_end_col m <> col.
Proof.
  unfold cannon_diagonals. rewrite in_flat_map. intros (i & _ & Hm).
  destruct (_ && _); [|contradiction].
  apply in_flat_map in Hm as (c & Hc & Hm).
  destruct (in_any_palace (row + fst c) _); [|contradiction].
  destruct (negb _); [|contradiction].
  destruct (in_any_palace (row + fst c * 2) _); [|contradiction].
  destruct (negb _); [|contradiction].
  destruct Hm as [<-|[]]. cbn.
  unfold diagnolCor in Hc. simpl in Hc.
  destruct Hc as [<-|[<-|[<-|[<-|[]]]]]; cbn; lia.
Qed.

(** ** The soldier *)

Lemma flat_map_all_nil {A B} (f : A -> list B) (l : list A) :
  (forall x, In x l -> f x = []) -> flat_map f l = [].
Proof.
  induction l as [|x l IH]; intros H; [reflexivity|]. cbn.
  rewrite (H x) by now left. apply IH. intros y Hy. apply H. now right.
Qed.

Lemma diagonal_steps_dead b row col pos zone enemy :
  forallb (fun i => forallb (fun c => negb (zone (fst i + fst c) (snd i + snd c)))
                      diagnolCor) pos = true ->
  diagonal_steps b row col pos zone enemy = [].
Proof.
  intros Hdead. unfold diagonal_steps.
  apply flat_map_all_nil. intros i Hi.
  destruct (_ && _) eqn:Hrc; [|reflexivity].
  apply andb_true_iff in Hrc as [Hr Hc]. apply Z.eqb_eq in Hr, Hc. subst.
  apply flat_map_all_nil. intros c Hc. cbn zeta.
  rewrite forallb_forall in Hdead. specialize (Hdead i Hi).
  rewrite forallb_forall in Hdead. specialize (Hdead c Hc).
  apply negb_true_iff in Hdead. now rewrite Hdead.
Qed.

(** The palace-diagonal loop of [get_pawn_moves] never appends: the RED
    branch asks for a square of the top palace whose diagonal neighbour is
    in the bottom palace, the BLUE branch the other way round. *)
Lemma pawn_moves_orthogonal b row col turn m :
  In m (pawn_moves b row col turn) ->
  get_end_col m = col \/ get_end_row m = row.
Proof.
  unfold pawn_moves.
  assert (Hland : forall enemy r c x,
             In x (land_elif b row col enemy r c) ->
             get_end_row x = r /\ get_end_col x = c).
  { intros enemy r c x. unfold land_elif.
    destruct (is_empty _); [|destruct (has_side _ _)];
      intros Hx; try contradiction; destruct Hx as [<-|[]]; now cbn. }
  destruct turn; rewrite diagonal_steps_dead by reflexivity;
    rewrite !in_app_iff; intros [H|[H|[H|[]]]];
    (destruct (_ && _); [|contradiction]);
    apply Hland in H as [Hr Hc]; auto.
Qed.

(** ** An accepted move and its undo *)

(** Away from checkmate an accepted move followed by [undo_move] gives back
    the board, the history and the side to move.  When the move mates, the
    board and the history come back all the same. *)
Lemma make_move_undo g xcor ycor g' :
  _game_state g = UNFINISHED -> xcor <> ycor ->
  make_move g xcor ycor = (true, g') ->
  _board (undo_move g') = _board g /\
  _moveLog (undo_move g') = _moveLog g /\
  (_game_state g' = UNFINISHED ->
   _player_turn g' = opp (_player_turn g) /\
   _player_turn (undo_move g') = _player_turn g) /\
  (_game_state g' <> UNFINISHED ->
   _player_turn g' = _player_turn g /\
   _player_turn (undo_move g') = opp (_player_turn g)).
Proof.
  intros Hs Hxy Hmake.
  destruct (find (move_matches xcor ycor) (legal_moves (_board g) (_player_turn g)))
    as [move|] eqn:Hf.
  2:{ destruct (make_move_unmatched g xcor ycor Hs Hxy Hf) as (g1 & E & _).
      congruence. }
  destruct (make_move_applied g xcor ycor move Hs Hxy Hf)
    as (g1 & E & Hb & Hl & Ht & Hstate).
  rewrite E in Hmake. inversion Hmake; subst g1. clear Hmake E.
  destruct (undo_move_snoc g' _ _ Hl) as (Hub & Hul & Hut & _).
  apply find_some in Hf as [Hin _].
  apply legal_moves_pseudo in Hin as [Hin _]. apply pseudo_ok_in in Hin.
  rewrite Hub, Hul, Hut, Hb, (undo_play _ _ _ Hin), Ht, Hstate.
  destruct (is_mate _ _); repeat split; try reflexivity;
    try (intros; apply opp_involutive);
    try (destruct (_player_turn g); cbn in *; congruence).
Qed.

(** * The claims *)

(** C1.  In every reachable game state in which both generals stand on
    the board, each move returned by [get_valid_moves] is one of the moves
    returned by [get_all_possible_moves] for that state, and on the board
    obtained by carrying it out no pseudo move of the opponent ends on the
    square of the mover's general.  (The proof needs the two generals only
    through the fact that a reachable board never holds two generals of
    one side.) *)
Theorem valid_moves_are_pseudo_and_safe g m :
  reachable g ->
  has_general (_board g) RED -> has_general (_board g) BLUE ->
  In m (fst (get_valid_moves g)) ->
  In m (get_all_possible_moves g) /\
  ~ general_attacked (play (_board g) m) (_player_turn g).
Proof.
  intros Hreach _ _ Hin.
  destruct (get_valid_moves_spec g) as [Hvm _]. rewrite Hvm in Hin.
  apply legal_moves_pseudo in Hin as [Hin Hsafe].
  split; [assumption|].
  intros (r & c & Hg & Hk & m' & Hm' & Hr & Hc).
  apply reachable_played in Hreach.
  pose proof (played_snoc _ _ _ _ Hreach (pseudo_ok_in _ _ _ Hin)) as Hplayed.
  pose proof (played_one_general _ _ (_player_turn g) Hplayed) as Hone.
  assert (Hfound : forall sqs,
             (forall x y, In (x, y) sqs -> in_grid x y = true) ->
             In (r, c) sqs ->
             general_check (play (_board g) m) (_player_turn g) sqs
             = Some (square_attacked (play (_board g) m) (_player_turn g) r c)).
  { induction sqs as [|[r0 c0] rest IH]; intros Hgrid Hrc; [contradiction|].
    cbn [general_check].
    destruct (is_general _ (get_cell _ r0 c0)) eqn:Hk0.
    - apply is_general_spec in Hk0.
      assert (E : (r0, c0) = (r, c)).
      { apply Hone; auto. apply Hgrid. now left. }
      now inversion E.
    - destruct Hrc as [E|Hrc].
      + inversion E; subst. apply is_general_spec in Hk. congruence.
      + apply IH; [|assumption]. intros x y Hxy. apply Hgrid. now right. }
  unfold leaves_in_check in Hsafe.
  rewrite Hfound in Hsafe.
  - assert (square_attacked (play (_board g) m) (_player_turn g) r c = true)
      as Hatt.
    { unfold square_attacked. apply existsb_exists. exists m'.
      split; [assumption|]. now rewrite Hr, Hc, !Z.eqb_refl. }
    rewrite Hatt in Hsafe. discriminate.
  - intros x y. apply in_squares.
  - now apply in_squares.
Qed.

Lemma valid_moves_are_pseudo_and_safe_witness :
  In first_step (get_all_possible_moves new_game) /\
  ~ general_attacked (play (_board new_game) first_step) (_player_turn new_game).
Proof.
  apply (valid_moves_are_pseudo_and_safe new_game first_step).
  - exact reach_new.
  - exists 1, 4. split; reflexivity.
  - exists 8, 4. split; reflexivity.
  - vm_compute. do 18 right. left. reflexivity.
Defined.

(** C2.  From an UNFINISHED state, when [make_move] carries out a move
    (origin different from destination) and the side then to move -- the
    opponent of the side that moved -- has no legal move on the resulting
    board: if [in_check()] is [True] for that side the game state credits
    the side that moved, otherwise the game state stays UNFINISHED. *)
Theorem checkmate_determination g xcor ycor g' :
  _game_state g = UNFINISHED -> xcor <> ycor ->
  make_move g xcor ycor = (true, g') ->
  fst (get_valid_moves (with_turn g' (opp (_player_turn g)))) = [] ->
  (fst (in_check (with_turn g' (opp (_player_turn g)))) = Some true ->
   _game_state g' = won_by (_player_turn g)) /\
  (fst (in_check (with_turn g' (opp (_player_turn g)))) <> Some true ->
   _game_state g' = UNFINISHED).
Proof.
  intros Hs Hxy Hmake Hnone.
  destruct (find (move_matches xcor ycor) (legal_moves (_board g) (_player_turn g)))
    as [move|] eqn:Hf.
  2:{ destruct (make_move_unmatched g xcor ycor Hs Hxy Hf) as (g1 & E & _).
      congruence. }
  destruct (make_move_applied g xcor ycor move Hs Hxy Hf)
    as (g1 & E & Hb & _ & _ & Hstate).
  rewrite E in Hmake. inversion Hmake; subst g1. clear Hmake E.
  destruct (get_valid_moves_spec (with_turn g' (opp (_player_turn g)))) as [Hvm _].
  destruct (in_check_spec (with_turn g' (opp (_player_turn g)))) as [Hchk _].
  fields. rewrite Hvm in Hnone. rewrite Hchk. rewrite Hb in *.
  unfold is_mate in Hstate. rewrite Hnone in Hstate. cbn [length Nat.eqb andb] in Hstate.
  rewrite Hstate.
  destruct (general_check _ _ squares) as [[|]|]; cbn; split; congruence.
Qed.

Lemma checkmate_determination_witness :
  _game_state (snd (make_move mate_game (0, 8) (9, 8))) = RED_WON.
Proof.
  refine (proj1 (checkmate_determination mate_game (0, 8) (9, 8)
                   (snd (make_move mate_game (0, 8) (9, 8))) _ _ _ _) _).
  - reflexivity.
  - discriminate.
  - vm_compute. reflexivity.
  - vm_compute. reflexivity.
  - vm_compute. reflexivity.
Defined.

(** C3 (the code departs from the claim).  On [mate_game] the rook move
    (0,8) -> (9,8) is accepted and mates: [make_move] returns [True], the
    state becomes RED_WON, and the side to move is still RED, the side that
    was to move at entry. *)
Theorem checkmate_branch_keeps_turn :
  _game_state mate_game = UNFINISHED /\
  fst (make_move mate_game (0, 8) (9, 8)) = true /\
  _game_state (snd (make_move mate_game (0, 8) (9, 8))) = RED_WON /\
  _player_turn (snd (make_move mate_game (0, 8) (9, 8))) = _player_turn mate_game.
Proof. vm_compute. repeat split. Qed.

(** C4 (the code departs from the claim).  After the mating move on
    [mate_game], [undo_move] gives back the board and the history, but the
    side to move is BLUE where it was RED before the move. *)
Theorem undo_after_checkmate_flips_turn :
  fst (make_move mate_game (0, 8) (9, 8)) = true /\
  _board (undo_move (snd (make_move mate_game (0, 8) (9, 8)))) = _board mate_game /\
  length (_moveLog (undo_move (snd (make_move mate_game (0, 8) (9, 8)))))
  = length (_moveLog mate_game) /\
  _player_turn mate_game = RED /\
  _player_turn (undo_move (snd (make_move mate_game (0, 8) (9, 8)))) = BLUE.
Proof. vm_compute. repeat split. Qed.

(** C5.  [make_move] called on a state that is not UNFINISHED, or with two
    different squares that match no move of the current list of legal
    moves, returns [False] and leaves the board, the history, the side to
    move and the game state as they were. *)
Theorem rejected_move_is_noop g xcor ycor :
  (_game_state g <> UNFINISHED \/
   (xcor <> ycor /\
    forall m, In m (fst (get_valid_moves g)) -> move_matches xcor ycor m = false)) ->
  fst (make_move g xcor ycor) = false /\
  _board (snd (make_move g xcor ycor)) = _board g /\
  _moveLog (snd (make_move g xcor ycor)) = _moveLog g /\
  _player_turn (snd (make_move g xcor ycor)) = _player_turn g /\
  _game_state (snd (make_move g xcor ycor)) = _game_state g.
Proof.
  intros H.
  assert (Hrej : exists g', make_move g xcor ycor = (false, g') /\ agree g g').
  { destruct (_game_state g) eqn:Hs.
    - destruct H as [H|[Hxy Hno]]; [contradiction|].
      apply make_move_unmatched; [assumption|assumption|].
      destruct (get_valid_moves_spec g) as [Hvm _]. rewrite Hvm in Hno.
      destruct (find _ _) as [m|] eqn:Hf; [|reflexivity].
      apply find_some in Hf as [Hin Hm]. rewrite (Hno m Hin) in Hm. discriminate.
    - apply make_move_terminal. congruence.
    - apply make_move_terminal. congruence. }
  destruct Hrej as (g' & -> & Hb & Ht & Hl & Hs & _). cbn [fst snd]. auto.
Qed.

Lemma rejected_move_is_noop_witness :
  fst (make_move new_game (4, 4) (5, 5)) = false /\
  _board (snd (make_move new_game (4, 4) (5, 5))) = _board new_game /\
  _moveLog (snd (make_move new_game (4, 4) (5, 5))) = _moveLog new_game /\
  _player_turn (snd (make_move new_game (4, 4) (5, 5))) = _player_turn new_game /\
  _game_state (snd (make_move new_game (4, 4) (5, 5))) = _game_state new_game.
Proof.
  apply (rejected_move_is_noop new_game (4, 4) (5, 5)).
  right. split; [discriminate|].
  assert (Hall : forallb (fun m => negb (move_matches (4, 4) (5, 5) m))
                   (fst (get_valid_moves new_game)) = true)
    by (vm_compute; reflexivity).
  intros m Hm. rewrite forallb_forall in Hall.
  apply negb_true_iff, Hall, Hm.
Defined.

(** C8.  [get_valid_moves] and [square_under_attack] return with the board
    and the side to move they were called with, in every game state. *)
Theorem legality_filter_frame g r c :
  _board (snd (get_valid_moves g)) = _board g /\
  _player_turn (snd (get_valid_moves g)) = _player_turn g /\
  _board (snd (square_under_attack g r c)) = _board g /\
  _player_turn (snd (square_under_attack g r c)) = _player_turn g.
Proof.
  destruct (get_valid_moves_spec g) as [_ (Hb & Ht & _)].
  rewrite square_under_attack_spec. cbn [snd]. auto.
Qed.

(** C9.  On an UNFINISHED state [make_move] called with the same square
    twice returns [True] and hands the turn to the other side, whatever the
    square holds. *)
Theorem same_square_passes_turn g xcor :
  _game_state g = UNFINISHED ->
  fst (make_move g xcor xcor) = true /\
  _player_turn (snd (make_move g xcor xcor)) = opp (_player_turn g).
Proof.
  intros Hs. destruct (make_move_pass g xcor Hs) as (g' & -> & _ & _ & _ & Ht).
  cbn [fst snd]. auto.
Qed.

Lemma same_square_passes_turn_witness :
  fst (make_move new_game (4, 4) (4, 4)) = true /\
  _player_turn (snd (make_move new_game (4, 4) (4, 4))) = opp (_player_turn new_game).
Proof. apply (same_square_passes_turn new_game (4, 4)). reflexivity. Defined.

(** C10.  No move returned by [get_all_possible_moves] ends on a square
    that holds a piece of the side to move, and the origin and destination
    of every returned move lie on the grid: rows 0 to 9, columns 0 to 8. *)
Theorem pseudo_moves_on_grid_not_on_own g m :
  In m (get_all_possible_moves g) ->
  has_side (_player_turn g)
    (get_cell (_board g) (get_end_row m) (get_end_col m)) = false /\
  (0 <= get_start_row m <= 9 /\ 0 <= get_start_col m <= 8) /\
  (0 <= get_end_row m <= 9 /\ 0 <= get_end_col m <= 8).
Proof.
  intros Hin. apply pseudo_ok_in in Hin as (Hgs & Hge & _ & Hown & _).
  apply in_grid_spec in Hgs, Hge. auto.
Qed.

Lemma pseudo_moves_on_grid_not_on_own_witness :
  has_side (_player_turn new_game)
    (get_cell (_board new_game) (get_end_row first_step) (get_end_col first_step))
  = false /\
  (0 <= get_start_row first_step <= 9 /\ 0 <= get_start_col first_step <= 8) /\
  (0 <= get_end_row first_step <= 9 /\ 0 <= get_end_col first_step <= 8).
Proof.
  apply (pseudo_moves_on_grid_not_on_own new_game first_step).
  vm_compute. do 18 right. left. reflexivity.
Defined.

(** C6 (amended).  Every orthogonal move [get_cannon_moves] appends goes
    over exactly one piece, and that piece is not a cannon: along a
    direction whose first piece is a cannon, or up to a square with no piece
    before it, nothing is appended.  The destination is empty or holds a
    piece of the other side, of any kind. *)
Theorem cannon_orthogonal_move_jumps_one_screen b turn row col m :
  in_grid row col = true ->
  In m (get_cannon_moves b turn row col []) ->
  get_end_row m = row \/ get_end_col m = col ->
  exists d i j,
    In d directions /\ 1 <= j < i /\
    get_end_row m = row + fst d * i /\ get_end_col m = col + snd d * i /\
    is_empty (get_cell b (row + fst d * j) (col + snd d * j)) = false /\
    is_cannon (get_cell b (row + fst d * j) (col + snd d * j)) = false /\
    (forall k, 1 <= k < i -> k <> j ->
       get_cell b (row + fst d * k) (col + snd d * k) = Empty) /\
    (is_empty (get_piece_captured m) = true \/
     has_side (opp turn) (get_piece_captured m) = true).
Proof.
  intros Hrc Hin Horth. unfold get_cannon_moves, cannon_moves in Hin.
  cbn [app] in Hin. apply in_app_iff in Hin as [Hin|Hin].
  2:{ apply cannon_diagonals_both_change in Hin. tauto. }
  apply in_flat_map in Hin as (d & Hd & Hin).
  pose proof (cannon_slide_jumped b row col turn d) as Hall.
  rewrite Forall_forall in Hall.
  destruct (Hall m ltac:(now apply list_elem_of_In))
    as (i & j & Hij & -> & Hgi & Hgj & Hej & Hcj & Hrest & Hdest).
  exists d, i, j. cbn. repeat split; try assumption; try lia.
  intros k Hk Hkj.
  assert (Hgk : in_grid (row + fst d * k) (col + snd d * k) = true).
  { apply in_grid_spec in Hrc, Hgi. apply in_grid_spec.
    unfold directions in Hd. simpl in Hd.
    destruct Hd as [<-|[<-|[<-|[<-|[]]]]]; cbn [fst snd] in *; lia. }
  specialize (Hrest k Hk Hkj Hgk).
  destruct (get_cell b (row + fst d * k) (col + snd d * k));
    [reflexivity|discriminate].
Qed.

Lemma cannon_orthogonal_move_jumps_one_screen_witness :
  exists d i j,
    In d directions /\ 1 <= j < i /\
    get_end_row cannon_takes_cannon = 2 + fst d * i /\
    get_end_col cannon_takes_cannon = 1 + snd d * i /\
    is_empty (get_cell cannon_board (2 + fst d * j) (1 + snd d * j)) = false /\
    is_cannon (get_cell cannon_board (2 + fst d * j) (1 + snd d * j)) = false /\
    (forall k, 1 <= k < i -> k <> j ->
       get_cell cannon_board (2 + fst d * k) (1 + snd d * k) = Empty) /\
    (is_empty (get_piece_captured cannon_takes_cannon) = true \/
     has_side (opp RED) (get_piece_captured cannon_takes_cannon) = true).
Proof.
  apply (cannon_orthogonal_move_jumps_one_screen cannon_board RED 2 1
           cannon_takes_cannon).
  - reflexivity.
  - vm_compute. do 3 right. left. reflexivity.
  - right. reflexivity.
Defined.

(** C6, as stated, fails: on [cannon_board] the RED cannon on (2,1), with
    the soldier on (3,1) as screen, is given the move onto (7,1), which
    holds a BLUE cannon. *)
Lemma cannon_captures_cannon :
  ~ (forall m, In m (get_cannon_moves cannon_board RED 2 1 []) ->
       is_cannon (get_cell cannon_board (get_end_row m) (get_end_col m)) = false).
Proof.
  intros H. specialize (H cannon_takes_cannon).
  assert (Hin : In cannon_takes_cannon (get_cannon_moves cannon_board RED 2 1 []))
    by (vm_compute; do 3 right; left; reflexivity).
  specialize (H Hin). vm_compute in H. discriminate.
Qed.

(** C7 (the code departs from the claim).  On [pawn_board] the RED soldier
    stands on (7,3), a corner of the palace on BLUE's home rows, and the
    palace centre (8,4) is empty; [get_pawn_moves] appends the step forward
    and the two steps sideways, and no diagonal step. *)
Theorem soldier_on_palace_corner_has_no_diagonal :
  get_cell pawn_board 7 3 = Pc RED Pawn /\
  in_bottom_palace 8 4 = true /\
  get_cell pawn_board 8 4 = Empty /\
  get_pawn_moves pawn_board RED 7 3 []
  = [new_Move (7, 3) (8, 3) pawn_board;
     new_Move (7, 3) (7, 4) pawn_board;
     new_Move (7, 3) (7, 2) pawn_board].
Proof. vm_compute. repeat split. Qed.

(** * Further properties *)

(** ** Where the moves of each rule go *)

Lemma in_singleton_move (m x : Move) : In m [x] -> m = x.
Proof. intros [<-|[]]. reflexivity. Qed.

Lemma in_land_elif b row col enemy r c m :
  In m (land_elif b row col enemy r c) ->
  m = mv b row col r c /\
  (is_empty (get_cell b r c) = true \/ has_side enemy (get_cell b r c) = true).
Proof.
  unfold land_elif. destruct (is_empty (get_cell b r c)) eqn:He.
  - intros H. apply in_singleton_move in H. auto.
  - destruct (has_side enemy (get_cell b r c)) eqn:Hs; [|contradiction].
    intros H. apply in_singleton_move in H. auto.
Qed.

Lemma in_land_if_if b row col enemy r c m :
  In m (land_if_if b row col enemy r c) ->
  m = mv b row col r c /\
  (is_empty (get_cell b r c) = true \/ has_side enemy (get_cell b r c) = true).
Proof.
  unfold land_if_if. rewrite in_app_iff.
  destruct (is_empty (get_cell b r c)) eqn:He,
    (has_side enemy (get_cell b r c)) eqn:Hs;
    intros [H|H]; try contradiction; apply in_singleton_move in H; auto.
Qed.

Lemma in_diagonal_steps b row col pos zone enemy m :
  In m (diagonal_steps b row col pos zone enemy) ->
  In (row, col) pos /\
  exists c, In c diagnolCor /\
    zone (row + fst c) (col + snd c) = true /\
    m = mv b row col (row + fst c) (col + snd c) /\
    (is_empty (get_piece_captured m) = true \/
     has_side enemy (get_piece_captured m) = true).
Proof.
  unfold diagonal_steps. rewrite in_flat_map. intros ([ir ic] & Hi & Hm).
  cbn [fst snd] in Hm.
  destruct ((row =? ir) && (col =? ic)) eqn:Hrc; [|contradiction].
  apply andb_true_iff in Hrc as [Hr Hc]. apply Z.eqb_eq in Hr, Hc. subst ir ic.
  split; [assumption|].
  apply in_flat_map in Hm as (c & Hc & Hm). cbn zeta in Hm.
  destruct (zone (row + fst c) (col + snd c)) eqn:Hz; [|contradiction].
  apply in_land_if_if in Hm as [-> Hdest].
  exists c. auto.
Qed.

Lemma diagonal_step_size c : In c diagnolCor -> Z.abs (fst c) = 1 /\ Z.abs (snd c) = 1.
Proof.
  unfold diagnolCor. simpl. intros [<-|[<-|[<-|[<-|[]]]]]; cbn; lia.
Qed.

Lemma direction_cases d :
  In d directions -> d = (1, 0) \/ d = (-1, 0) \/ d = (0, -1) \/ d = (0, 1).
Proof. unfold directions. simpl. intuition. Qed.

(** X1.  Every move [get_pawn_moves] appends starts on the soldier's
    square and ends one step forward (down the board for RED, up for BLUE)
    or one step to the left or right, on an empty square or on a piece of
    the other side: never backward, never diagonal, never further. *)
Theorem soldier_steps b turn row col m :
  In m (get_pawn_moves b turn row col []) ->
  (get_start_row m, get_start_col m) = (row, col) /\
  ((get_end_row m = row + (match turn with RED => 1 | BLUE => -1 end) /\
    get_end_col m = col) \/
   (get_end_row m = row /\
    (get_end_col m = col + 1 \/ get_end_col m = col - 1))) /\
  (is_empty (get_piece_captured m) = true \/
   has_side (opp turn) (get_piece_captured m) = true).
Proof.
  unfold get_pawn_moves, pawn_moves. cbn [app].
  destruct turn; rewrite diagonal_steps_dead by reflexivity;
    rewrite !in_app_iff; intros [H|[H|[H|[]]]];
    (destruct (_ && _); [|contradiction]);
    apply in_land_elif in H as [-> Hdest]; cbn; repeat split; auto;
    replace (row - 1) with (row + -1) by lia; auto.
Qed.

Lemma soldier_steps_witness :
  (get_start_row first_step, get_start_col first_step) = (3, 0) /\
  ((get_end_row first_step = 3 + 1 /\ get_end_col first_step = 0) \/
   (get_end_row first_step = 3 /\
    (get_end_col first_step = 0 + 1 \/ get_end_col first_step = 0 - 1))) /\
  (is_empty (get_piece_captured first_step) = true \/
   has_side (opp RED) (get_piece_captured first_step) = true).
Proof.
  apply (soldier_steps initial_board RED 3 0 first_step).
  vm_compute. left. reflexivity.
Defined.

Lemma rook_step_inv b row col own d i st :
  1 <= i ->
  rook_inv b row col d i st ->
  rook_inv b row col d (i + 1) (rook_step b row col own d st i).
Proof.
  destruct st as [mark out]. unfold rook_inv. cbn [fst snd].
  intros Hi [Hmark Hout]. unfold rook_step.
  set (p := get_cell b (row + fst d * i) (col + snd d * i)) in *.
  destruct (in_grid (row + fst d * i) (col + snd d * i)) eqn:Hg.
  2:{ cbn [fst snd]. split; [|assumption].
      intros H0 k Hk Hgk. destruct (Z.eq_dec k i) as [->|]; [congruence|].
      apply Hmark; [assumption|lia|assumption]. }
  destruct (mark =? 0) eqn:Hm0.
  2:{ cbn [fst snd]. split; [|assumption].
      intros ->. discriminate. }
  apply Z.eqb_eq in Hm0. subst mark. specialize (Hmark eq_refl).
  assert (Hmv : clear_path b row col d
                  (mv b row col (row + fst d * i) (col + snd d * i))).
  { exists i. repeat split; try assumption. }
  destruct (has_side own p) eqn:Hown; cbn [fst snd].
  { split; [discriminate|assumption]. }
  destruct (is_empty p) eqn:He; cbn [fst snd].
  { split.
    - intros _ k Hk Hgk. destruct (Z.eq_dec k i) as [->|]; [assumption|].
      apply Hmark; [lia|assumption].
    - apply Forall_app_2; [assumption|]. repeat constructor. exact Hmv. }
  destruct (has_side (opp own) p) eqn:Hopp; cbn [fst snd].
  - split; [discriminate|].
    apply Forall_app_2; [assumption|]. repeat constructor. exact Hmv.
  - rewrite (not_empty_has_side own p He Hopp) in Hown. discriminate.
Qed.

Lemma rook_slide_clear b row col own d :
  Forall (clear_path b row col d) (rook_slide b row col own d).
Proof.
  unfold rook_slide, range.
  change (10 - 1) with (Z.of_nat 9).
  apply (fold_range_invariant (rook_step b row col own d)
           (rook_inv b row col d) 1 9 (0, [])).
  - split; [intros; lia|constructor].
  - intros i st Hi. apply rook_step_inv. lia.
Qed.

Lemma between_in_grid row col d i k :
  In d directions -> in_grid row col = true ->
  in_grid (row + fst d * i) (col + snd d * i) = true -> 1 <= k < i ->
  in_grid (row + fst d * k) (col + snd d * k) = true.
Proof.
  intros Hd Hrc Hgi Hk. apply in_grid_spec in Hrc, Hgi. apply in_grid_spec.
  apply direction_cases in Hd as [->|[->|[->| ->]]]; cbn [fst snd] in *; lia.
Qed.

Lemma is_empty_spec p : is_empty p = true <-> p = Empty.
Proof. destruct p; simpl; split; congruence. Qed.

(** X2.  A rook does not jump and its palace move is a single step: every
    move [get_rook_moves] appends either runs along a row or a column over
    empty squares only, or starts on one of the ten palace points and ends
    on a diagonal neighbour inside a palace. *)
Theorem rook_moves_do_not_jump b turn row col m :
  in_grid row col = true ->
  In m (get_rook_moves b turn row col []) ->
  (exists d i,
     In d directions /\ 1 <= i /\
     get_end_row m = row + fst d * i /\ get_end_col m = col + snd d * i /\
     forall k, 1 <= k < i ->
       get_cell b (row + fst d * k) (col + snd d * k) = Empty)
  \/
  (In (row, col) all_diagonalPos /\
   Z.abs (get_end_row m - row) = 1 /\ Z.abs (get_end_col m - col) = 1 /\
   in_any_palace (get_end_row m) (get_end_col m) = true).
Proof.
  intros Hrc Hin. unfold get_rook_moves in Hin. cbn [app] in Hin.
  assert (Hcases :
    (exists d, In d directions /\ In m (rook_slide b row col turn d)) \/
    In m (diagonal_steps b row col all_diagonalPos in_any_palace (opp turn))).
  { destruct turn; unfold rook_moves in Hin.
    - apply in_flat_map in Hin as (d & Hd & Hm).
      apply in_app_iff in Hm as [Hm|Hm]; [left; eauto|right; assumption].
    - apply in_app_iff in Hin as [Hm|Hm]; [|right; assumption].
      apply in_flat_map in Hm as (d & Hd & Hm). left; eauto. }
  destruct Hcases as [(d & Hd & Hm)|Hm].
  - left. pose proof (rook_slide_clear b row col turn d) as Hall.
    rewrite Forall_forall in Hall.
    destruct (Hall m ltac:(now apply list_elem_of_In))
      as (i & Hi & -> & Hgi & Hclear).
    exists d, i. cbn. repeat split; try assumption.
    intros k Hk. apply is_empty_spec, Hclear; [assumption|].
    eapply between_in_grid; eassumption.
  - right. apply in_diagonal_steps in Hm as (Hpos & c & Hc & Hz & -> & _).
    apply diagonal_step_size in Hc as [H1 H2]. cbn.
    repeat split; try assumption; lia.
Qed.

Lemma rook_moves_do_not_jump_witness :
  (exists d i,
     In d directions /\ 1 <= i /\
     get_end_row mating_move = 0 + fst d * i /\
     get_end_col mating_move = 8 + snd d * i /\
     forall k, 1 <= k < i ->
       get_cell mate_board (0 + fst d * k) (8 + snd d * k) = Empty)
  \/
  (In (0, 8) all_diagonalPos /\
   Z.abs (get_end_row mating_move - 0) = 1 /\
   Z.abs (get_end_col mating_move - 8) = 1 /\
   in_any_palace (get_end_row mating_move) (get_end_col mating_move) = true).
Proof.
  apply (rook_moves_do_not_jump mate_board RED 0 8 mating_move).
  - reflexivity.
  - vm_compute. do 8 right. left. reflexivity.
Defined.

Lemma in_horse_leg b row col own r c m :
  In m (horse_leg b row col own r c) ->
  m = mv b row col r c /\ in_grid r c = true /\
  has_side own (get_cell b r c) = false.
Proof.
  unfold horse_leg. destruct (in_grid r c) eqn:Hg; [|contradiction].
  cbn [Z.eqb andb].
  destruct (has_side own (get_cell b r c)) eqn:Hs; cbn [negb];
    [contradiction|].
  intros H. apply in_singleton_move in H. auto.
Qed.

Lemma leg_triples x :
  In x (combine directions (combine check_directions right_directions)) ->
  x = ((1, 0), ((1, -1), (1, 1))) \/ x = ((-1, 0), ((-1, -1), (-1, 1))) \/
  x = ((0, -1), ((1, -1), (-1, -1))) \/ x = ((0, 1), ((-1, 1), (1, 1))).
Proof. simpl. intuition. Qed.

(** X3.  Every move [get_horse_moves] appends is an L: one orthogonal step
    onto a square that is on the grid and empty, then one diagonal step
    outward, that is two squares along one axis and one along the other.
    With a piece of either side on the first square nothing is appended in
    that direction. *)
Theorem horse_moves_are_unblocked_L b turn row col m :
  In m (get_horse_moves b turn row col []) ->
  exists d,
    In d directions /\
    in_grid (row + fst d) (col + snd d) = true /\
    get_cell b (row + fst d) (col + snd d) = Empty /\
    ((snd d = 0 /\ get_end_row m = row + 2 * fst d /\
      Z.abs (get_end_col m - col) = 1) \/
     (fst d = 0 /\ get_end_col m = col + 2 * snd d /\
      Z.abs (get_end_row m - row) = 1)).
Proof.
  unfold get_horse_moves, horse_moves. cbn [app].
  rewrite in_flat_map. intros ([d [l r]] & Hx & Hm).
  cbn zeta in Hm.
  destruct (in_grid (row + fst d) (col + snd d)) eqn:Hg; [|contradiction].
  destruct (is_empty (get_cell b (row + fst d) (col + snd d))) eqn:He;
    cbn [negb Z.eqb] in Hm; [|contradiction].
  apply is_empty_spec in He.
  exists d. apply leg_triples in Hx.
  assert (Hd : In d directions).
  { unfold directions. simpl.
    destruct Hx as [H|[H|[H|H]]]; inversion H; subst; tauto. }
  repeat split; try assumption.
  apply in_app_iff in Hm as [Hm|Hm]; apply in_horse_leg in Hm as [-> _];
    destruct Hx as [H|[H|[H|H]]]; inversion H; subst; cbn; lia.
Qed.

Lemma horse_moves_are_unblocked_L_witness :
  exists d,
    In d directions /\
    in_grid (4 + fst d) (4 + snd d) = true /\
    get_cell horse_board (4 + fst d) (4 + snd d) = Empty /\
    ((snd d = 0 /\ get_end_row (new_Move (4, 4) (6, 3) horse_board) = 4 + 2 * fst d /\
      Z.abs (get_end_col (new_Move (4, 4) (6, 3) horse_board) - 4) = 1) \/
     (fst d = 0 /\ get_end_col (new_Move (4, 4) (6, 3) horse_board) = 4 + 2 * snd d /\
      Z.abs (get_end_row (new_Move (4, 4) (6, 3) horse_board) - 4) = 1)).
Proof.
  apply (horse_moves_are_unblocked_L horse_board RED 4 4
           (new_Move (4, 4) (6, 3) horse_board)).
  vm_compute. left. reflexivity.
Defined.

Lemma in_elephant_leg b row col own er ec l m :
  In m (elephant_leg b row col own er ec l) ->
  in_grid (er + fst l) (ec + snd l) = true /\
  get_cell b (er + fst l) (ec + snd l) = Empty /\
  m = mv b row col (er + fst l * 2) (ec + snd l * 2).
Proof.
  unfold elephant_leg.
  destruct (in_grid (er + fst l) (ec + snd l)) eqn:Hg; [|contradiction].
  destruct (get_cell b (er + fst l) (ec + snd l)) as [|s k] eqn:Hp.
  - cbn [is_empty negb has_side Z.eqb andb orb].
    destruct (in_grid (er + fst l * 2) (ec + snd l * 2)); [|contradiction].
    destruct (negb _); [|contradiction].
    intros H. apply in_singleton_move in H. auto.
  - cbn [is_empty negb Z.eqb Pos.eqb andb].
    destruct (in_grid (er + fst l * 2) (ec + snd l * 2)); [|contradiction].
    destruct (has_side BLUE (Pc s k)); cbn [Z.eqb Pos.eqb andb orb];
      contradiction.
Qed.

(** X4.  Every move [get_elephant_moves] appends is one orthogonal step
    followed by two diagonal steps outward, and the two squares passed on
    the way -- the orthogonal neighbour and the first diagonal square -- are
    on the grid and empty. *)
Theorem elephant_moves_pass_empty_squares b turn row col m :
  In m (get_elephant_moves b turn row col []) ->
  exists d l,
    In d directions /\ In l diagnolCor /\
    (fst d <> 0 -> fst l = fst d) /\ (snd d <> 0 -> snd l = snd d) /\
    in_grid (row + fst d) (col + snd d) = true /\
    get_cell b (row + fst d) (col + snd d) = Empty /\
    in_grid (row + fst d + fst l) (col + snd d + snd l) = true /\
    get_cell b (row + fst d + fst l) (col + snd d + snd l) = Empty /\
    get_end_row m = row + fst d + fst l * 2 /\
    get_end_col m = col + snd d + snd l * 2.
Proof.
  unfold get_elephant_moves, elephant_moves. cbn [app].
  rewrite in_flat_map. intros ([d [l r]] & Hx & Hm).
  cbn zeta in Hm.
  destruct (in_grid (row + fst d) (col + snd d)) eqn:Hg; [|contradiction].
  destruct (is_empty (get_cell b (row + fst d) (col + snd d))) eqn:He;
    cbn [negb Z.eqb] in Hm; [|contradiction].
  apply is_empty_spec in He. apply leg_triples in Hx.
  apply in_app_iff in Hm as [Hm|Hm];
    apply in_elephant_leg in Hm as (Hg1 & He1 & ->);
    [exists d, l|exists d, r];
    (repeat split; try assumption);
    try reflexivity;
    unfold directions, diagnolCor;
    destruct Hx as [H|[H|[H|H]]]; inversion H; subst; cbn; try tauto;
    intros; try lia; try contradiction.
Qed.

Lemma elephant_moves_pass_empty_squares_witness :
  exists d l,
    In d directions /\ In l diagnolCor /\
    (fst d <> 0 -> fst l = fst d) /\ (snd d <> 0 -> snd l = snd d) /\
    in_grid (0 + fst d) (1 + snd d) = true /\
    get_cell initial_board (0 + fst d) (1 + snd d) = Empty /\
    in_grid (0 + fst d + fst l) (1 + snd d + snd l) = true /\
    get_cell initial_board (0 + fst d + fst l) (1 + snd d + snd l) = Empty /\
    get_end_row elephant_leap = 0 + fst d + fst l * 2 /\
    get_end_col elephant_leap = 1 + snd d + snd l * 2.
Proof.
  apply (elephant_moves_pass_empty_squares initial_board RED 0 1 elephant_leap).
  vm_compute. left. reflexivity.
Defined.

(** X5.  Guards and generals never leave their palace: every move
    [get_general_moves] or [get_guards_moves] appends ends inside the
    mover's own palace (rows 0..2 for RED, 7..9 for BLUE, columns 3..5), at
    most one row and one column away, and a diagonal step is only made from
    one of the five marked points of that palace. *)
Theorem palace_pieces_stay_home b turn row col m :
  In m (get_general_moves b turn row col []) \/
  In m (get_guards_moves b turn row col []) ->
  (match turn with RED => in_top_palace | BLUE => in_bottom_palace end)
    (get_end_row m) (get_end_col m) = true /\
  Z.abs (get_end_row m - row) <= 1 /\ Z.abs (get_end_col m - col) <= 1 /\
  (get_end_row m <> row /\ get_end_col m <> col ->
   In (row, col)
     (match turn with RED => top_diagonalPos | BLUE => bottom_diagonalPos end)).
Proof.
  unfold get_general_moves, get_guards_moves. cbn [app].
  intros H. assert (Hin : In m (palace_moves b row col turn)) by tauto.
  clear H. unfold palace_moves in Hin.
  destruct turn; apply in_app_iff in Hin as [Hin|Hin].
  - apply in_flat_map in Hin as (d & Hd & Hm). cbn zeta in Hm.
    destruct (in_top_palace _ _) eqn:Hz; [|contradiction].
    apply in_land_elif in Hm as [-> _].
    apply direction_cases in Hd as [->|[->|[->| ->]]]; cbn in *;
      repeat split; try assumption; try lia.
  - apply in_diagonal_steps in Hin as (Hpos & c & Hc & Hz & -> & _).
    apply diagonal_step_size in Hc as [H1 H2]. cbn.
    repeat split; try assumption; try lia. auto.
  - apply in_flat_map in Hin as (d & Hd & Hm). cbn zeta in Hm.
    destruct (in_bottom_palace _ _) eqn:Hz; [|contradiction].
    apply in_land_elif in Hm as [-> _].
    apply direction_cases in Hd as [->|[->|[->| ->]]]; cbn in *;
      repeat split; try assumption; try lia.
  - apply in_diagonal_steps in Hin as (Hpos & c & Hc & Hz & -> & _).
    apply diagonal_step_size in Hc as [H1 H2]. cbn.
    repeat split; try assumption; try lia. auto.
Qed.

Lemma palace_pieces_stay_home_witness :
  in_top_palace (get_end_row general_step) (get_end_col general_step) = true /\
  Z.abs (get_end_row general_step - 1) <= 1 /\
  Z.abs (get_end_col general_step - 4) <= 1 /\
  (get_end_row general_step <> 1 /\ get_end_col general_step <> 4 ->
   In (1, 4) top_diagonalPos).
Proof.
  apply (palace_pieces_stay_home initial_board RED 1 4 general_step).
  left. vm_compute. left. reflexivity.
Defined.

Lemma jumped_is_orthogonal b row col own d m :
  In d directions -> jumped b row col own d m ->
  get_end_row m = row \/ get_end_col m = col.
Proof.
  intros Hd (i & j & _ & -> & _).
  apply direction_cases in Hd as [->|[->|[->| ->]]]; cbn; lia.
Qed.

(** X6.  A cannon move that changes both row and column is a palace leap:
    it starts on one of the ten palace points, passes over the diagonal
    neighbour, which is inside a palace and holds a piece, and ends two
    diagonal steps away inside a palace, on a square that does not hold a
    piece of the mover.  The piece passed over is not looked at further: it
    may be a cannon. *)
Theorem cannon_palace_leap b turn row col m :
  In m (get_cannon_moves b turn row col []) ->
  get_end_row m <> row -> get_end_col m <> col ->
  In (row, col) all_diagonalPos /\
  exists c, In c diagnolCor /\
    in_any_palace (row + fst c) (col + snd c) = true /\
    is_empty (get_cell b (row + fst c) (col + snd c)) = false /\
    get_end_row m = row + fst c * 2 /\ get_end_col m = col + snd c * 2 /\
    in_any_palace (get_end_row m) (get_end_col m) = true /\
    has_side turn (get_piece_captured m) = false.
Proof.
  unfold get_cannon_moves, cannon_moves. cbn [app].
  intros Hin Hr Hc. apply in_app_iff in Hin as [Hin|Hin].
  - apply in_flat_map in Hin as (d & Hd & Hm).
    pose proof (cannon_slide_jumped b row col turn d) as Hall.
    rewrite Forall_forall in Hall.
    destruct (jumped_is_orthogonal _ _ _ _ _ _ Hd
                (Hall m ltac:(now apply list_elem_of_In))); contradiction.
  - clear Hr Hc. unfold cannon_diagonals in Hin.
    apply in_flat_map in Hin as ([ir ic] & Hi & Hm). cbn [fst snd] in Hm.
    destruct ((row =? ir) && (col =? ic)) eqn:Hrc; [|contradiction].
    apply andb_true_iff in Hrc as [Hr Hc]. apply Z.eqb_eq in Hr, Hc. subst ir ic.
    split; [assumption|].
    apply in_flat_map in Hm as (c & Hc & Hm). cbn zeta in Hm.
    destruct (in_any_palace (row + fst c) (col + snd c)) eqn:Hz1;
      [|contradiction].
    destruct (is_empty (get_cell b (row + fst c) (col + snd c))) eqn:He;
      cbn [negb] in Hm; [contradiction|].
    destruct (in_any_palace (row + fst c * 2) (col + snd c * 2)) eqn:Hz2;
      [|contradiction].
    destruct (has_side turn (get_cell b (row + fst c * 2) (col + snd c * 2)))
      eqn:Hs; cbn [negb] in Hm; [contradiction|].
    apply in_singleton_move in Hm. subst m.
    exists c. cbn. auto 10.
Qed.

Lemma cannon_palace_leap_witness :
  In (7, 3) all_diagonalPos /\
  exists c, In c diagnolCor /\
    in_any_palace (7 + fst c) (3 + snd c) = true /\
    is_empty (get_cell palace_cannon_board (7 + fst c) (3 + snd c)) = false /\
    get_end_row palace_cannon_leap = 7 + fst c * 2 /\
    get_end_col palace_cannon_leap = 3 + snd c * 2 /\
    in_any_palace (get_end_row palace_cannon_leap)
      (get_end_col palace_cannon_leap) = true /\
    has_side RED (get_piece_captured palace_cannon_leap) = false.
Proof.
  apply (cannon_palace_leap palace_cannon_board RED 7 3 palace_cannon_leap).
  - vm_compute. left. reflexivity.
  - vm_compute. discriminate.
  - vm_compute. discriminate.
Defined.

(** ** The lists of moves *)

(** X7.  Every move [get_all_possible_moves] returns starts on a square
    that holds a piece of the side to move, carries as moved and captured
    piece what the board holds on its origin and destination, and never
    stays in place. *)
Theorem pseudo_moves_start_on_own_piece g m :
  In m (get_all_possible_moves g) ->
  has_side (_player_turn g)
    (get_cell (_board g) (get_start_row m) (get_start_col m)) = true /\
  get_piece_moved m = get_cell (_board g) (get_start_row m) (get_start_col m) /\
  get_piece_captured m = get_cell (_board g) (get_end_row m) (get_end_col m) /\
  (get_start_row m, get_start_col m) <> (get_end_row m, get_end_col m).
Proof.
  intros Hin. apply pseudo_ok_in in Hin.
  destruct (pseudo_ok_pieces _ _ _ Hin) as [Hpm Hpc].
  pose proof (pseudo_ok_moves _ _ _ Hin) as Hne.
  destruct Hin as (_ & _ & Hs & _). auto.
Qed.

Lemma pseudo_moves_start_on_own_piece_witness :
  has_side (_player_turn new_game)
    (get_cell (_board new_game) (get_start_row first_step)
       (get_start_col first_step)) = true /\
  get_piece_moved first_step
  = get_cell (_board new_game) (get_start_row first_step)
      (get_start_col first_step) /\
  get_piece_captured first_step
  = get_cell (_board new_game) (get_end_row first_step)
      (get_end_col first_step) /\
  (get_start_row first_step, get_start_col first_step)
  <> (get_end_row first_step, get_end_col first_step).
Proof.
  apply (pseudo_moves_start_on_own_piece new_game first_step).
  vm_compute. do 18 right. left. reflexivity.
Defined.

(** X8.  [get_valid_moves] returns, in the order of
    [get_all_possible_moves], exactly the pseudo moves after which
    [in_check()] is not [True] for the mover on the board with the move
    carried out. *)
Theorem get_valid_moves_is_filter g :
  fst (get_valid_moves g)
  = List.filter
      (fun m => negb (is_True (fst (in_check (with_board g (play (_board g) m))))))
      (get_all_possible_moves g).
Proof.
  destruct (get_valid_moves_spec g) as [-> _].
  unfold legal_moves, get_all_possible_moves.
  apply filter_ext. intros m.
  destruct (in_check_spec (with_board g (play (_board g) m))) as [-> _].
  reflexivity.
Qed.

(** X9.  Asking again changes nothing: on the state [get_valid_moves]
    leaves behind, [get_valid_moves] and [get_all_possible_moves] return
    the lists they returned before. *)
Theorem get_valid_moves_is_repeatable g :
  fst (get_valid_moves (snd (get_valid_moves g))) = fst (get_valid_moves g) /\
  get_all_possible_moves (snd (get_valid_moves g)) = get_all_possible_moves g.
Proof.
  destruct (get_valid_moves_spec g) as [Hvm (Hb & Ht & _)].
  destruct (get_valid_moves_spec (snd (get_valid_moves g))) as [Hvm' _].
  unfold get_all_possible_moves. rewrite Hvm', Hvm, Hb, Ht. auto.
Qed.

Lemma general_check_none b turn sqs :
  general_check b turn sqs = None <->
  forall r c, In (r, c) sqs -> get_cell b r c <> Pc turn King.
Proof.
  induction sqs as [|[r0 c0] rest IH]; cbn [general_check].
  - split; [intros _ r c []|reflexivity].
  - destruct (is_general turn (get_cell b r0 c0)) eqn:Hk.
    + split; [discriminate|]. intros H. exfalso.
      apply is_general_spec in Hk. apply (H r0 c0); [now left|assumption].
    + rewrite IH. split.
      * intros H r c [E|Hin]; [|now apply H].
        inversion E; subst. intros Hc. apply is_general_spec in Hc. congruence.
      * intros H r c Hin. apply H. now right.
Qed.

(** X10.  [in_check] returns [None] exactly when no general of the side
    to move stands on the grid. *)
Theorem in_check_none_iff_no_general g :
  fst (in_check g) = None <-> ~ has_general (_board g) (_player_turn g).
Proof.
  destruct (in_check_spec g) as [-> _]. rewrite general_check_none.
  unfold has_general. split.
  - intros H (r & c & Hg & Hk). apply (H r c); [now apply in_squares|assumption].
  - intros H r c Hin Hk. apply H. exists r, c. split; [|assumption].
    now apply in_squares.
Qed.

Lemma has_general_play b turn m s :
  wf_board b -> pseudo_ok b turn m ->
  has_general (play b m) s -> has_general b s.
Proof.
  intros Hwf Hok (r & c & Hg & Hk).
  rewrite (get_play b turn m r c Hwf Hok Hg) in Hk.
  pose proof Hok as (Hgs & _).
  destruct (coord_eqb (r, c) (get_end_row m, get_end_col m)).
  - exists (get_start_row m), (get_start_col m). auto.
  - destruct (coord_eqb (r, c) (get_start_row m, get_start_col m));
      [discriminate|].
    exists r, c. auto.
Qed.

(** X11.  When the side to move has no general on a 10x9 board, nothing
    is filtered: [get_valid_moves] returns all of
    [get_all_possible_moves]. *)
Theorem without_general_every_move_is_valid g :
  wf_board (_board g) ->
  ~ has_general (_board g) (_player_turn g) ->
  fst (get_valid_moves g) = get_all_possible_moves g.
Proof.
  intros Hwf Hno. destruct (get_valid_moves_spec g) as [-> _].
  unfold legal_moves, get_all_possible_moves.
  pose proof (all_possible_moves_ok (_board g) (_player_turn g)) as Hall.
  induction Hall as [|m l Hm Hl IH]; [reflexivity|].
  cbn [List.filter]. rewrite IH.
  assert (leaves_in_check (_board g) (_player_turn g) m = false) as ->;
    [|reflexivity].
  unfold leaves_in_check.
  assert (general_check (play (_board g) m) (_player_turn g) squares = None)
    as ->; [|reflexivity].
  apply general_check_none. intros r c Hin Hk. apply Hno.
  apply (has_general_play _ _ m _ Hwf Hm).
  exists r, c. split; [now apply in_squares|assumption].
Qed.

Lemma without_general_every_move_is_valid_witness :
  fst (get_valid_moves (with_board new_game horse_board))
  = get_all_possible_moves (with_board new_game horse_board).
Proof.
  apply (without_general_every_move_is_valid (with_board new_game horse_board)).
  - split; [reflexivity|]. repeat constructor.
  - intros (r & c & Hg & Hk). apply grid_cases in Hg as [Hr Hc].
    simpl in Hr, Hc.
    repeat (destruct Hr as [<-|Hr]; [|]); try contradiction;
      repeat (destruct Hc as [<-|Hc]; [|]); try contradiction;
      vm_compute in Hk; discriminate.
Defined.

Lemma square_attacked_not_own b turn r c :
  has_side (opp turn) (get_cell b r c) = true ->
  square_attacked b turn r c = false.
Proof.
  intros Hs. unfold square_attacked.
  destruct (existsb _ _) eqn:He; [|reflexivity].
  apply existsb_exists in He as (m & Hin & Hm).
  apply andb_true_iff in Hm as [Hr Hc]. apply Z.eqb_eq in Hr, Hc.
  apply pseudo_ok_in in Hin as (_ & _ & _ & Hown & _).
  rewrite Hr, Hc in Hown. congruence.
Qed.

(** X12.  [square_under_attack] answers [False] on every square that
    holds a piece of the side not to move: the moves it looks through are
    that side's own, and none of them lands on its own piece. *)
Theorem square_under_attack_spares_other_side g r c :
  has_side (opp (_player_turn g)) (get_cell (_board g) r c) = true ->
  fst (square_under_attack g r c) = false.
Proof.
  intros Hs. rewrite square_under_attack_spec. cbn [fst].
  now apply square_attacked_not_own.
Qed.

Lemma square_under_attack_spares_other_side_witness :
  fst (square_under_attack new_game 8 4) = false.
Proof.
  apply (square_under_attack_spares_other_side new_game 8 4). reflexivity.
Defined.

Lemma is_in_check_from_frame g s sqs : snd (is_in_check_from g s sqs) = g.
Proof.
  induction sqs as [|[r c] rest IH]; cbn [is_in_check_from]; [reflexivity|].
  rewrite square_under_attack_spec.
  destruct (is_general s (get_cell (_board g) r c)); [reflexivity|assumption].
Qed.

Lemma is_in_check_from_own g sqs :
  fst (is_in_check_from g (_player_turn g) sqs)
  = general_check (_board g) (_player_turn g) sqs.
Proof.
  induction sqs as [|[r c] rest IH]; cbn [is_in_check_from general_check];
    [reflexivity|].
  rewrite square_under_attack_spec.
  destruct (is_general _ _); [reflexivity|assumption].
Qed.

Lemma is_in_check_from_other g sqs :
  fst (is_in_check_from g (opp (_player_turn g)) sqs) <> Some true.
Proof.
  induction sqs as [|[r c] rest IH]; cbn [is_in_check_from];
    [discriminate|].
  rewrite square_under_attack_spec.
  destruct (is_general _ _) eqn:Hk; [|assumption].
  cbn [fst]. apply is_general_spec in Hk.
  rewrite square_attacked_not_own; [discriminate|].
  rewrite Hk. cbn. destruct (opp (_player_turn g)); reflexivity.
Qed.

(** X13.  [is_in_check(team)] looks through the moves of the opponent of
    the side to move, whatever [team] is.  For the side to move it returns
    what [in_check()] returns; for the other side it never returns [True];
    and it leaves the game as it found it. *)
Theorem is_in_check_answers_for_side_to_move_only g team :
  fst (is_in_check g (team_of (_player_turn g))) = fst (in_check g) /\
  fst (is_in_check g (team_of (opp (_player_turn g)))) <> Some true /\
  snd (is_in_check g team) = g.
Proof.
  destruct (in_check_spec g) as [-> _].
  pose proof (is_in_check_from_own g squares) as Hown.
  pose proof (is_in_check_from_other g squares) as Hother.
  repeat split.
  - unfold is_in_check. destruct (_player_turn g); cbn in *; assumption.
  - unfold is_in_check. destruct (_player_turn g); cbn in *; assumption.
  - unfold is_in_check.
    destruct (String.eqb team "red"); [apply is_in_check_from_frame|].
    destruct (String.eqb team "blue"); [apply is_in_check_from_frame|].
    reflexivity.
Qed.

(** ** Accepted moves, wins and the history *)

Lemma accepted_move_found g xcor ycor g' :
  _game_state g = UNFINISHED -> xcor <> ycor ->
  make_move g xcor ycor = (true, g') ->
  exists move,
    find (move_matches xcor ycor) (legal_moves (_board g) (_player_turn g))
    = Some move /\
    pseudo_ok (_board g) (_player_turn g) move /\
    (get_start_row move, get_start_col move) = xcor /\
    (get_end_row move, get_end_col move) = ycor /\
    _board g' = play (_board g) move /\
    _moveLog g' = _moveLog g ++ [move] /\
    _game_state g'
    = (if is_mate (play (_board g) move) (opp (_player_turn g))
       then won_by (_player_turn g) else UNFINISHED).
Proof.
  intros Hs Hxy Hmake.
  destruct (find (move_matches xcor ycor) (legal_moves (_board g) (_player_turn g)))
    as [move|] eqn:Hf.
  2:{ destruct (make_move_unmatched g xcor ycor Hs Hxy Hf) as (g1 & E & _).
      congruence. }
  destruct (make_move_applied g xcor ycor move Hs Hxy Hf)
    as (g1 & E & Hb & Hl & _ & Hstate).
  rewrite E in Hmake. inversion Hmake; subst g1.
  exists move. apply find_some in Hf as [Hin Hm].
  apply move_matches_spec in Hm as [Hx Hy].
  apply legal_moves_pseudo in Hin as [Hin _]. apply pseudo_ok_in in Hin.
  auto 10.
Qed.

(** X14.  An accepted move changes two squares of a 10x9 board and no
    other: the destination takes the piece that stood on the origin, the
    origin becomes empty. *)
Theorem accepted_move_moves_one_piece g xcor ycor g' r c :
  wf_board (_board g) -> _game_state g = UNFINISHED -> xcor <> ycor ->
  make_move g xcor ycor = (true, g') ->
  in_grid r c = true ->
  get_cell (_board g') r c
  = if coord_eqb (r, c) ycor then get_cell (_board g) (fst xcor) (snd xcor)
    else if coord_eqb (r, c) xcor then Empty
    else get_cell (_board g) r c.
Proof.
  intros Hwf Hs Hxy Hmake Hg.
  destruct (accepted_move_found g xcor ycor g' Hs Hxy Hmake)
    as (move & _ & Hok & <- & <- & -> & _).
  now rewrite (get_play _ _ move r c Hwf Hok Hg).
Qed.

Lemma accepted_move_moves_one_piece_witness :
  get_cell (_board (snd (make_move new_game (3, 0) (4, 0)))) 4 0
  = get_cell (_board new_game) 3 0.
Proof.
  refine (accepted_move_moves_one_piece new_game (3, 0) (4, 0)
            (snd (make_move new_game (3, 0) (4, 0))) 4 0 _ _ _ _ _).
  - exact wf_initial_board.
  - reflexivity.
  - discriminate.
  - vm_compute. reflexivity.
  - reflexivity.
Defined.

(** X15.  [make_move] accepts a move between two different squares only
    when both are on the grid, the origin holds a piece of the side to move
    and the destination does not; the move it appends to the history is the
    one between these squares, with the pieces they held. *)
Theorem accepted_move_is_of_own_piece g xcor ycor g' :
  _game_state g = UNFINISHED -> xcor <> ycor ->
  make_move g xcor ycor = (true, g') ->
  in_grid (fst xcor) (snd xcor) = true /\
  in_grid (fst ycor) (snd ycor) = true /\
  has_side (_player_turn g) (get_cell (_board g) (fst xcor) (snd xcor)) = true /\
  has_side (_player_turn g) (get_cell (_board g) (fst ycor) (snd ycor)) = false /\
  _moveLog g' = _moveLog g ++ [new_Move xcor ycor (_board g)].
Proof.
  intros Hs Hxy Hmake.
  destruct (accepted_move_found g xcor ycor g' Hs Hxy Hmake)
    as (move & _ & Hok & <- & <- & _ & -> & _).
  cbn [fst snd]. destruct Hok as (H1 & H2 & H3 & H4 & H5).
  rewrite <- H5. auto.
Qed.

Lemma accepted_move_is_of_own_piece_witness :
  in_grid 3 0 = true /\ in_grid 4 0 = true /\
  has_side (_player_turn new_game) (get_cell (_board new_game) 3 0) = true /\
  has_side (_player_turn new_game) (get_cell (_board new_game) 4 0) = false /\
  _moveLog (snd (make_move new_game (3, 0) (4, 0)))
  = _moveLog new_game ++ [new_Move (3, 0) (4, 0) (_board new_game)].
Proof.
  refine (accepted_move_is_of_own_piece new_game (3, 0) (4, 0)
            (snd (make_move new_game (3, 0) (4, 0))) _ _ _).
  - reflexivity.
  - discriminate.
  - vm_compute. reflexivity.
Defined.

(** X16.  A game only ends by checkmate: if [make_move] on an UNFINISHED
    state leaves a state that is not UNFINISHED, it returned [True], the
    state credits the side that moved, and on the new board the other side
    has no legal move and [in_check()] is [True] for it. *)
Theorem win_only_by_checkmate g xcor ycor :
  _game_state g = UNFINISHED ->
  _game_state (snd (make_move g xcor ycor)) <> UNFINISHED ->
  fst (make_move g xcor ycor) = true /\
  _game_state (snd (make_move g xcor ycor)) = won_by (_player_turn g) /\
  fst (get_valid_moves
         (with_turn (snd (make_move g xcor ycor)) (opp (_player_turn g)))) = [] /\
  fst (in_check
         (with_turn (snd (make_move g xcor ycor)) (opp (_player_turn g))))
  = Some true.
Proof.
  intros Hs Hend.
  destruct (coord_eqb xcor ycor) eqn:He.
  { apply coord_eqb_spec in He as ->.
    destruct (make_move_pass g ycor Hs) as (g' & E & _ & _ & Hs' & _).
    rewrite E in Hend. cbn [snd] in Hend. congruence. }
  assert (Hxy : xcor <> ycor).
  { intros ->. assert (coord_eqb ycor ycor = true) by now apply coord_eqb_spec.
    congruence. }
  destruct (find (move_matches xcor ycor) (legal_moves (_board g) (_player_turn g)))
    as [move|] eqn:Hf.
  2:{ destruct (make_move_unmatched g xcor ycor Hs Hxy Hf)
        as (g' & E & _ & _ & _ & Hs' & _).
      rewrite E in Hend. cbn [snd] in Hend. congruence. }
  destruct (make_move_applied g xcor ycor move Hs Hxy Hf)
    as (g' & E & Hb & _ & _ & Hstate).
  rewrite E in *. cbn [fst snd] in *.
  destruct (get_valid_moves_spec (with_turn g' (opp (_player_turn g)))) as [-> _].
  destruct (in_check_spec (with_turn g' (opp (_player_turn g)))) as [-> _].
  fields. rewrite Hb.
  destruct (is_mate (play (_board g) move) (opp (_player_turn g))) eqn:Hmate;
    [|congruence].
  unfold is_mate in Hmate. apply andb_true_iff in Hmate as [Hlen Hchk].
  apply Nat.eqb_eq in Hlen.
  repeat split; try assumption.
  - now apply length_zero_iff_nil.
  - now destruct (general_check (play (_board g) move) (opp (_player_turn g))
                    squares) as [[|]|].
Qed.

Lemma win_only_by_checkmate_witness :
  fst (make_move mate_game (0, 8) (9, 8)) = true /\
  _game_state (snd (make_move mate_game (0, 8) (9, 8)))
  = won_by (_player_turn mate_game) /\
  fst (get_valid_moves
         (with_turn (snd (make_move mate_game (0, 8) (9, 8)))
            (opp (_player_turn mate_game)))) = [] /\
  fst (in_check
         (with_turn (snd (make_move mate_game (0, 8) (9, 8)))
            (opp (_player_turn mate_game)))) = Some true.
Proof.
  apply (win_only_by_checkmate mate_game (0, 8) (9, 8)).
  - reflexivity.
  - vm_compute. discriminate.
Defined.

Lemma game_state_undo_move g : _game_state (undo_move g) = _game_state g.
Proof.
  destruct (_moveLog g) as [|m l] eqn:Hl using rev_ind.
  - now rewrite (undo_move_empty g Hl).
  - now destruct (undo_move_snoc g _ _ Hl) as (_ & _ & _ & ->).
Qed.

(** X17.  [undo_move] does not reopen a finished game: it never changes
    the game state, so after a win every [make_move] on the position taken
    back still returns [False]. *)
Theorem undo_does_not_reopen_game g xcor ycor :
  _game_state g <> UNFINISHED ->
  _game_state (undo_move g) = _game_state g /\
  fst (make_move (undo_move g) xcor ycor) = false.
Proof.
  intros Hs. split; [apply game_state_undo_move|].
  destruct (make_move_terminal (undo_move g) xcor ycor) as (g' & -> & _);
    [now rewrite game_state_undo_move|reflexivity].
Qed.

Lemma undo_does_not_reopen_game_witness :
  _game_state (undo_move (snd (make_move mate_game (0, 8) (9, 8))))
  = _game_state (snd (make_move mate_game (0, 8) (9, 8))) /\
  fst (make_move (undo_move (snd (make_move mate_game (0, 8) (9, 8))))
         (9, 3) (9, 4)) = false.
Proof.
  apply (undo_does_not_reopen_game
           (snd (make_move mate_game (0, 8) (9, 8))) (9, 3) (9, 4)).
  vm_compute. discriminate.
Defined.

(** X18.  A turn passed with [make_move(sq, sq)] leaves no trace in the
    history: [undo_move] after it takes back the move made before the pass,
    as it would have without the pass, and hands the turn to the side that
    passed. *)
Theorem undo_after_pass_takes_back_previous_move g xcor :
  _game_state g = UNFINISHED -> _moveLog g <> [] ->
  _board (undo_move (snd (make_move g xcor xcor))) = _board (undo_move g) /\
  _moveLog (undo_move (snd (make_move g xcor xcor))) = _moveLog (undo_move g) /\
  _player_turn (undo_move (snd (make_move g xcor xcor))) = _player_turn g /\
  _player_turn (undo_move g) = opp (_player_turn g).
Proof.
  intros Hs Hlog.
  destruct (make_move_pass g xcor Hs) as (g' & -> & Hb & Hl & _ & Ht).
  cbn [snd].
  destruct (_moveLog g) as [|m l] eqn:Hl0 using rev_ind; [contradiction|].
  clear IHl.
  destruct (undo_move_snoc g _ _ Hl0) as (-> & -> & -> & _).
  destruct (undo_move_snoc g' _ _ Hl) as (-> & -> & -> & _).
  rewrite Hb, Ht, opp_involutive. auto.
Qed.

Lemma undo_after_pass_takes_back_previous_move_witness :
  _board (undo_move (snd (make_move (snd (make_move new_game (3, 0) (4, 0)))
                            (0, 0) (0, 0))))
  = _board (undo_move (snd (make_move new_game (3, 0) (4, 0)))) /\
  _moveLog (undo_move (snd (make_move (snd (make_move new_game (3, 0) (4, 0)))
                              (0, 0) (0, 0))))
  = _moveLog (undo_move (snd (make_move new_game (3, 0) (4, 0)))) /\
  _player_turn (undo_move (snd (make_move (snd (make_move new_game (3, 0) (4, 0)))
                                  (0, 0) (0, 0))))
  = _player_turn (snd (make_move new_game (3, 0) (4, 0))) /\
  _player_turn (undo_move (snd (make_move new_game (3, 0) (4, 0))))
  = opp (_player_turn (snd (make_move new_game (3, 0) (4, 0)))).
Proof.
  apply (undo_after_pass_takes_back_previous_move
           (snd (make_move new_game (3, 0) (4, 0))) (0, 0)).
  - vm_compute. reflexivity.
  - vm_compute. discriminate.
Defined.

(** X19.  Every state reached from a fresh game keeps a board of ten rows
    of nine cells with at most one general of each side on it. *)
Theorem reachable_boards_are_sound g :
  reachable g ->
  wf_board (_board g) /\
  one_general (_board g) RED /\ one_general (_board g) BLUE.
Proof.
  intros H. apply reachable_played in H.
  repeat split.
  - eapply played_wf, H.
  - eapply played_wf, H.
  - eapply played_one_general, H.
  - eapply played_one_general, H.
Qed.

Lemma reachable_boards_are_sound_witness :
  wf_board (_board (snd (make_move new_game (3, 0) (4, 0)))) /\
  one_general (_board (snd (make_move new_game (3, 0) (4, 0)))) RED /\
  one_general (_board (snd (make_move new_game (3, 0) (4, 0)))) BLUE.
Proof.
  apply (reachable_boards_are_sound (snd (make_move new_game (3, 0) (4, 0)))).
  apply reach_make. exact reach_new.
Defined.

(** X20.  In every reachable state the last move of the history shows on
    the board: its origin is empty and its destination holds the piece it
    moved. *)
Theorem last_move_shows_on_board g log m :
  reachable g -> _moveLog g = log ++ [m] ->
  get_cell (_board g) (get_start_row m) (get_start_col m) = Empty /\
  get_cell (_board g) (get_end_row m) (get_end_col m) = get_piece_moved m /\
  get_piece_moved m <> Empty.
Proof.
  intros Hreach Hl. apply reachable_played in Hreach. rewrite Hl in Hreach.
  inversion Hreach as [Hb Hnil|b l turn m' Hp Hok Hb Hlog].
  - destruct log; discriminate.
  - apply app_inj_tail in Hlog as [-> ->].
    pose proof (played_wf _ _ Hp) as Hwf.
    pose proof Hok as (Hgs & Hge & Hown & _).
    destruct (pseudo_ok_pieces _ _ _ Hok) as [Hpm _].
    rewrite (get_play _ _ m _ _ Hwf Hok Hgs), (get_play _ _ m _ _ Hwf Hok Hge).
    assert (coord_eqb (get_end_row m, get_end_col m)
              (get_end_row m, get_end_col m) = true) as ->
      by now apply coord_eqb_spec.
    assert (coord_eqb (get_start_row m, get_start_col m)
              (get_start_row m, get_start_col m) = true) as ->
      by now apply coord_eqb_spec.
    destruct (coord_eqb (get_start_row m, get_start_col m)
                (get_end_row m, get_end_col m)) eqn:He.
    + apply coord_eqb_spec in He. now apply pseudo_ok_moves in Hok.
    + rewrite Hpm. repeat split.
      intros E. rewrite E in Hown. discriminate.
Qed.

Lemma last_move_shows_on_board_witness :
  get_cell (_board (snd (make_move new_game (3, 0) (4, 0))))
    (get_start_row first_step) (get_start_col first_step) = Empty /\
  get_cell (_board (snd (make_move new_game (3, 0) (4, 0))))
    (get_end_row first_step) (get_end_col first_step)
  = get_piece_moved first_step /\
  get_piece_moved first_step <> Empty.
Proof.
  apply (last_move_shows_on_board (snd (make_move new_game (3, 0) (4, 0)))
           [] first_step).
  - apply reach_make. exact reach_new.
  - vm_compute. reflexivity.
Defined.

(** ** The two conversions *)

Lemma py_list_index_spec x l c :
  py_list_index x l = Some c ->
  0 <= c < Z.of_nat (length l) /\ l !! Z.to_nat c = Some x.
Proof.
  revert c. induction l as [|y l IH]; intros c; cbn [py_list_index];
    [discriminate|].
  destruct (Ascii.eqb y x) eqn:E.
  - apply Ascii.eqb_eq in E. subst y. intros H. inversion H; subst.
    cbn [length]. split; [lia|reflexivity].
  - destruct (py_list_index x l) as [n|]; [|discriminate].
    intros H. inversion H; subst. destruct (IH n eq_refl) as [Hn Hl].
    cbn [length]. split; [lia|].
    replace (Z.to_nat (n + 1)) with (S (Z.to_nat n)) by lia. exact Hl.
Qed.

Lemma py_index_in_range {A} (l : list A) i :
  0 <= i < Z.of_nat (length l) -> py_index l i = l !! Z.to_nat i.
Proof.
  intros Hi. unfold py_index.
  assert ((0 <=? i) && (i <? Z.of_nat (length l)) = true) as ->; [|reflexivity].
  apply andb_true_iff. split; [apply Z.leb_le|apply Z.ltb_lt]; lia.
Qed.

Lemma py_index_out_of_range {A} (l : list A) i :
  Z.of_nat (length l) <= i -> py_index l i = None.
Proof.
  intros Hi. unfold py_index.
  assert ((0 <=? i) && (i <? Z.of_nat (length l)) = false) as ->.
  { apply andb_false_iff. right. apply Z.ltb_ge. lia. }
  assert ((- Z.of_nat (length l) <=? i) && (i <? 0) = false) as ->;
    [|reflexivity].
  apply andb_false_iff. right. apply Z.ltb_ge. lia.
Qed.

Lemma py_index_some_range {A} (l : list A) i x :
  py_index l i = Some x -> - Z.of_nat (length l) <= i < Z.of_nat (length l).
Proof.
  unfold py_index.
  destruct ((0 <=? i) && (i <? Z.of_nat (length l))) eqn:H1.
  - apply andb_true_iff in H1 as [H H']. apply Z.leb_le in H.
    apply Z.ltb_lt in H'. lia.
  - destruct ((- Z.of_nat (length l) <=? i) && (i <? 0)) eqn:H2;
      [|discriminate].
    apply andb_true_iff in H2 as [H H']. apply Z.leb_le in H.
    apply Z.ltb_lt in H'. lia.
Qed.

(** X21.  The two conversions undo each other, with the arguments
    swapped: if [convert_to_algebraic(xcor, ycor)] gives the letter and the
    number, then [convert_to_coords] applied to that letter followed by a
    string that [int] reads as that number gives back [(ycor, xcor)], the
    column counted from the left also when [xcor] was negative. *)
Theorem convert_to_coords_of_algebraic int xcor ycor ax ay s :
  convert_to_algebraic xcor ycor = Return (ax, ay) ->
  int s = Some ay ->
  convert_to_coords int (String.String ax s) = Return (ycor, xcor mod 9).
Proof.
  unfold convert_to_algebraic.
  destruct (py_index col_code xcor) as [l|] eqn:Hidx; [|discriminate].
  intros H Hint. inversion H; subst ax ay. clear H.
  pose proof (py_index_some_range _ _ _ Hidx) as Hr.
  change (Z.of_nat (length col_code)) with 9 in Hr.
  unfold convert_to_coords. rewrite Hint.
  assert (Hc : xcor = -9 \/ xcor = -8 \/ xcor = -7 \/ xcor = -6 \/ xcor = -5 \/
               xcor = -4 \/ xcor = -3 \/ xcor = -2 \/ xcor = -1 \/ xcor = 0 \/
               xcor = 1 \/ xcor = 2 \/ xcor = 3 \/ xcor = 4 \/ xcor = 5 \/
               xcor = 6 \/ xcor = 7 \/ xcor = 8) by lia.
  assert (Hex : existsb (Ascii.eqb l) col_code = true /\
                py_list_index l col_code = Some (xcor mod 9)).
  { repeat (destruct Hc as [->|Hc];
            [vm_compute in Hidx; inversion Hidx; subst; vm_compute; auto|]).
    subst. vm_compute in Hidx. inversion Hidx; subst. vm_compute. auto. }
  destruct Hex as [-> ->]. f_equal. f_equal. lia.
Qed.

Lemma convert_to_coords_of_algebraic_witness :
  convert_to_coords int_of_digits "c7"%string = Return (6, 2 mod 9).
Proof.
  apply (convert_to_coords_of_algebraic int_of_digits 2 6 "c"%char 7 "7"%string).
  - reflexivity.
  - reflexivity.
Defined.

(** X22.  When [convert_to_coords] returns a pair, its column is one of
    0..8, the string started with the letter [col_code] holds at that
    column, the rest of the string was read by [int] as the row plus one,
    and [convert_to_algebraic] on the column and the row gives that letter
    and that number back. *)
Theorem convert_to_algebraic_of_coords int pos_str r c :
  convert_to_coords int pos_str = Return (r, c) ->
  0 <= c <= 8 /\
  exists col rest,
    pos_str = String.String col rest /\ int rest = Some (r + 1) /\
    convert_to_algebraic c r = Return (col, r + 1).
Proof.
  unfold convert_to_coords. destruct pos_str as [|col rest]; [discriminate|].
  destruct (existsb _ col_code); [|discriminate].
  destruct (py_list_index col col_code) as [c'|] eqn:Hidx; [|discriminate].
  destruct (int rest) as [n|] eqn:Hint; [|discriminate].
  intros H. inversion H; subst. clear H.
  apply py_list_index_spec in Hidx as [Hc Hl].
  change (Z.of_nat (length col_code)) with 9 in Hc.
  split; [lia|]. exists col, rest.
  split; [reflexivity|]. split.
  - rewrite Hint. f_equal. lia.
  - unfold convert_to_algebraic.
    rewrite py_index_in_range by (change (Z.of_nat (length col_code)) with 9; lia).
    now rewrite Hl.
Qed.

Lemma convert_to_algebraic_of_coords_witness :
  0 <= 2 <= 8 /\
  exists col rest,
    "c7"%string = String.String col rest /\ int_of_digits rest = Some (6 + 1) /\
    convert_to_algebraic 2 6 = Return (col, 6 + 1).
Proof.
  apply (convert_to_algebraic_of_coords int_of_digits "c7"%string 6 2). reflexivity.
Defined.

(** ** The driver *)

(** X23.  A mouse position names a square of the grid exactly when it lies
    between 34 and 609 across and between 34 and 673 down; the window is
    640 by 704, so its margins name rows and columns off the board. *)
Theorem click_square_in_grid x y :
  in_grid (fst (click_square (x, y))) (snd (click_square (x, y))) = true <->
  34 <= x <= 609 /\ 34 <= y <= 673.
Proof.
  unfold click_square, SQ_SIZE. cbn [fst snd]. rewrite in_grid_spec.
  split; intros H; repeat split; Z.div_mod_to_equations; lia.
Qed.

Lemma driver_pending_click d :
  driver_reachable d ->
  playerClicks d = [] \/
  exists p, playerClicks d = [p] /\ sqSelected d = Some p.
Proof.
  induction 1 as [|d ev Hd IH|d Hd IH]; [now left| |assumption].
  destruct ev as [location| | |]; cbn [on_event playerClicks sqSelected];
    try assumption; [|now left].
  unfold on_mouse_down. destruct (click_square location) as [row col].
  destruct (sq_eqb (sqSelected d) (row, col)); [now left|].
  destruct IH as [->|(p & -> & Hsel)]; cbn [app length Nat.eqb].
  - right. exists (row, col). auto.
  - destruct (make_move _ _ _). now left.
Qed.

Lemma driver_game_reachable d : driver_reachable d -> reachable (gs d).
Proof.
  induction 1 as [|d ev Hd IH|d Hd IH].
  - exact reach_new.
  - destruct ev as [location| | |]; cbn [on_event gs]; try assumption.
    + unfold on_mouse_down. destruct (click_square location) as [row col].
      destruct (sq_eqb _ _); [assumption|].
      destruct (_ =? 2)%nat; [|assumption].
      pose proof (reach_make (gs d)
                    (py_nth (playerClicks d ++ [(row, col)]) 0)
                    (py_nth (playerClicks d ++ [(row, col)]) 1) IH) as Hr.
      destruct (make_move _ _ _). exact Hr.
    + now apply reach_undo.
    + exact reach_new.
  - cbn [on_frame gs]. now apply reach_valid.
Qed.

(** X24.  The driver never passes a turn: whatever was clicked before, a
    mouse click either leaves the game as it is or calls [make_move] with
    two different squares. *)
Theorem driver_click_never_passes d location :
  driver_reachable d ->
  gs (on_mouse_down d location) = gs d \/
  exists xcor ycor,
    xcor <> ycor /\
    gs (on_mouse_down d location) = snd (make_move (gs d) xcor ycor).
Proof.
  intros Hd. unfold on_mouse_down.
  destruct (click_square location) as [row col].
  destruct (sq_eqb (sqSelected d) (row, col)) eqn:Hsel; [now left|].
  destruct (driver_pending_click d Hd) as [->|(p & -> & Hp)];
    cbn [app length Nat.eqb]; [now left|].
  right. exists p, (row, col). split.
  - intros ->. rewrite Hp in Hsel. cbn [sq_eqb] in Hsel.
    assert (coord_eqb (row, col) (row, col) = true) by now apply coord_eqb_spec.
    congruence.
  - cbn [py_nth nth]. now destruct (make_move _ _ _).
Qed.

Lemma driver_click_never_passes_witness :
  gs (on_mouse_down initial_driver (100, 100)) = gs initial_driver \/
  exists xcor ycor,
    xcor <> ycor /\
    gs (on_mouse_down initial_driver (100, 100))
    = snd (make_move (gs initial_driver) xcor ycor).
Proof.
  apply (driver_click_never_passes initial_driver (100, 100)).
  exact driver_start.
Defined.

(** X25.  A first click in the right or bottom margin of the window (from
    610 across or from 674 down) selects a square off the board, and when
    the draw comes next it subscripts [gs._board] with that square:
    [highlightSquares] raises [IndexError]. *)
Theorem margin_click_breaks_highlight d x y :
  driver_reachable d -> playerClicks d = [] ->
  0 <= x < WIDTH -> 0 <= y < HEIGHT ->
  610 <= x \/ 674 <= y ->
  highlight_subscript (on_frame (on_mouse_down d (x, y))) = None.
Proof.
  intros Hd Hclicks Hx Hy Hmargin.
  pose proof (driver_game_reachable d Hd) as Hreach.
  apply reachable_played, played_wf in Hreach. destruct Hreach as [Hlen Hall].
  set (row := (y + 30) / SQ_SIZE - 1). set (col := (x + 30) / SQ_SIZE - 1).
  assert (Hsel : sqSelected (on_mouse_down d (x, y)) = Some (row, col) /\
                 gs (on_mouse_down d (x, y)) = gs d).
  { unfold on_mouse_down, click_square. cbn [fst snd]. fold row col.
    destruct (sq_eqb (sqSelected d) (row, col)) eqn:Hs.
    - cbn [sqSelected gs]. split; [|reflexivity].
      destruct (sqSelected d) as [p|]; [|discriminate].
      cbn [sq_eqb] in Hs. apply coord_eqb_spec in Hs. now subst.
    - rewrite Hclicks. cbn [app length Nat.eqb sqSelected gs]. auto. }
  destruct Hsel as [Hsel Hgs].
  unfold highlight_subscript. cbn [on_frame sqSelected gs]. rewrite Hsel, Hgs.
  destruct (get_valid_moves_spec (gs d)) as [_ (-> & _)].
  unfold WIDTH, HEIGHT, SQ_SIZE in *.
  destruct (Z_le_gt_dec 674 y) as [Hbottom|Hinside].
  - rewrite py_index_out_of_range; [reflexivity|].
    rewrite Hlen. subst row. Z.div_mod_to_equations. lia.
  - destruct (py_index (_board (gs d)) row) as [line|] eqn:Hline;
      [|reflexivity].
    assert (Hll : length line = 9%nat).
    { rewrite Forall_forall in Hall. apply Hall.
      unfold py_index in Hline.
      destruct (_ && _); [eapply list_elem_of_lookup_2, Hline|].
      destruct (_ && _); [eapply list_elem_of_lookup_2, Hline|discriminate]. }
    rewrite py_index_out_of_range; [reflexivity|].
    rewrite Hll. subst col. Z.div_mod_to_equations. lia.
Qed.

Lemma margin_click_breaks_highlight_witness :
  highlight_subscript (on_frame (on_mouse_down initial_driver (620, 100))) = None.
Proof.
  apply (margin_click_breaks_highlight initial_driver 620 100).
  - exact driver_start.
  - reflexivity.
  - unfold WIDTH. lia.
  - unfold HEIGHT. lia.
  - left. lia.
Defined.
